(** * ring.h: a power-of-two circular array of handles

    A shallow embedding of [ring.h] (zhoukk/ring) and the proofs of its
    sequential properties.  The C code works on [uint32_t] counters that are
    allowed to wrap; they are modelled as [Z] with the reduction modulo
    [2^32] written at every arithmetic operation.  The slot array
    [r->ring] and the caller's buffer [objs] are lists indexed from 0; an
    access outside a list is undefined behaviour in C and is reported as
    [Fault].  The loops carry a fuel: a loop that has not finished when the
    fuel is spent reports [Spin]. *)

From Stdlib Require Import ZArith Lia Bool.
From stdpp Require Import base list.

Local Open Scope Z_scope.

(** ** Machine integers *)

Definition UINT32_MOD : Z := 2 ^ 32.

(** Reduction of an arithmetic result to [uint32_t]. *)
Definition u32 (x : Z) : Z := x mod UINT32_MOD.

Definition is_u32 (x : Z) : Prop := 0 <= x < UINT32_MOD.

(** ** Outcomes of running C code *)

Inductive outcome (A : Type) : Type :=
| Done (a : A)
| Fault
| Spin.

Arguments Done {A} a.
Arguments Fault {A}.
Arguments Spin {A}.

#[global] Instance outcome_ret : MRet outcome := fun A a => Done a.
#[global] Instance outcome_bind : MBind outcome := fun A B f m =>
  match m with
  | Done a => f a
  | Fault => Fault
  | Spin => Spin
  end.

(** ** Memory: the slot array and the caller's buffer *)

(** A handle is a [void *]: an opaque pointer-sized value. *)
Definition handle : Type := Z.

Definition load (m : list handle) (i : Z) : outcome handle :=
  match m !! Z.to_nat i with
  | Some v => Done v
  | None => Fault
  end.

Definition store (m : list handle) (i : Z) (v : handle) : outcome (list handle) :=
  if i <? Z.of_nat (length m) then Done (<[Z.to_nat i := v]> m) else Fault.

(** ** Constants of the header *)

Definition RING_F_SP : Z := 0x01.
Definition RING_F_SC : Z := 0x02.
Definition RING_B_FIXED : Z := 0.
Definition RING_B_VARIABLE : Z := 1.
Definition RING_SIZE_MASK : Z := 0x0fffffff.

(** [#define POWEROF2(x) ((((x)-1) & (x)) == 0)] on an [unsigned] x. *)
Definition POWEROF2 (x : Z) : bool := Z.land (u32 (x - 1)) x =? 0.

(** The layout of [struct ring] on the LP64 x86 target the code includes
    [emmintrin.h] for: two metadata blocks of five [uint32_t], each aligned
    to a 64-byte cache line, then the flexible slot array on the next cache
    line. *)
Definition CACHE_LINE_SIZE : Z := 64.
Definition sizeof_ring : Z := 2 * CACHE_LINE_SIZE.
Definition sizeof_ptr : Z := 8.

Definition ring_memsize (count : Z) : Z :=
  if negb (POWEROF2 count) || (RING_SIZE_MASK <? count) then 0
  else u32 (sizeof_ring + count * sizeof_ptr).

(** ** The ring structure *)

Module Prod.
Record t : Type := mk
  { sp : Z; size : Z; mask : Z; head : Z; tail : Z }.
End Prod.

Module Cons.
Record t : Type := mk
  { sc : Z; size : Z; mask : Z; head : Z; tail : Z }.
End Cons.

Record ring : Type := mkring
  { prod : Prod.t; cons : Cons.t; slots : list handle }.

Definition set_prod_head (r : ring) (v : Z) : ring :=
  let p := prod r in
  mkring (Prod.mk (Prod.sp p) (Prod.size p) (Prod.mask p) v (Prod.tail p))
         (cons r) (slots r).

Definition set_prod_tail (r : ring) (v : Z) : ring :=
  let p := prod r in
  mkring (Prod.mk (Prod.sp p) (Prod.size p) (Prod.mask p) (Prod.head p) v)
         (cons r) (slots r).

Definition set_cons_head (r : ring) (v : Z) : ring :=
  let c := cons r in
  mkring (prod r)
         (Cons.mk (Cons.sc c) (Cons.size c) (Cons.mask c) v (Cons.tail c))
         (slots r).

Definition set_cons_tail (r : ring) (v : Z) : ring :=
  let c := cons r in
  mkring (prod r)
         (Cons.mk (Cons.sc c) (Cons.size c) (Cons.mask c) (Cons.head c) v)
         (slots r).

Definition set_slots (r : ring) (s : list handle) : ring :=
  mkring (prod r) (cons r) s.

(** [!!x] of C. *)
Definition bang_bang (x : Z) : Z := if x =? 0 then 0 else 1.

(** [ring_init]: the header is zeroed and filled in; the slot array that
    follows it in the caller's memory is left as it is. *)
Definition ring_init (r : ring) (count flags : Z) : ring :=
  mkring (Prod.mk (bang_bang (Z.land flags RING_F_SP)) count (u32 (count - 1)) 0 0)
         (Cons.mk (bang_bang (Z.land flags RING_F_SC)) count (u32 (count - 1)) 0 0)
         (slots r).

(** ** Accessors *)

Definition ring_full (r : ring) : Z :=
  let prod_tail := Prod.tail (prod r) in
  let cons_tail := Cons.tail (cons r) in
  if Z.land (u32 (cons_tail - prod_tail - 1)) (Prod.mask (prod r)) =? 0
  then 1 else 0.

Definition ring_empty (r : ring) : Z :=
  let prod_tail := Prod.tail (prod r) in
  let cons_tail := Cons.tail (cons r) in
  bang_bang (if cons_tail =? prod_tail then 1 else 0).

Definition ring_count (r : ring) : Z :=
  let prod_tail := Prod.tail (prod r) in
  let cons_tail := Cons.tail (cons r) in
  Z.land (u32 (prod_tail - cons_tail)) (Prod.mask (prod r)).

Definition ring_avail (r : ring) : Z :=
  let prod_tail := Prod.tail (prod r) in
  let cons_tail := Cons.tail (cons r) in
  Z.land (u32 (cons_tail - prod_tail - 1)) (Prod.mask (prod r)).

(** ** Slot transfer *)

(** One [dst[di] = src[si];]. *)
Definition copy_slot (src dst : list handle) (si di : Z) : outcome (list handle) :=
  v ← load src si; store dst di v.

(** [~(unsigned)0x3]. *)
Definition NOT3 : Z := u32 (Z.lnot 0x3).

(** The unrolled loop of [PUSH_PTRS]:
    [for (i = 0; i < (n & ~3); i += 4, idx += 4) { ... four stores ... }]. *)
Fixpoint push_unrolled (fuel : nat) (ring objs : list handle) (n i idx : Z)
  : outcome (list handle * Z * Z) :=
  if i <? Z.land n NOT3 then
    match fuel with
    | O => Spin
    | S fuel =>
        ring ← copy_slot objs ring i idx;
        ring ← copy_slot objs ring (u32 (i + 1)) (u32 (idx + 1));
        ring ← copy_slot objs ring (u32 (i + 2)) (u32 (idx + 2));
        ring ← copy_slot objs ring (u32 (i + 3)) (u32 (idx + 3));
        push_unrolled fuel ring objs n (u32 (i + 4)) (u32 (idx + 4))
    end
  else Done (ring, i, idx).

(** [r->ring[idx++] = objs[i++];]. *)
Definition push_step (objs : list handle) (s : list handle * Z * Z)
  : outcome (list handle * Z * Z) :=
  let '(ring, i, idx) := s in
  ring ← copy_slot objs ring i idx;
  Done (ring, u32 (i + 1), u32 (idx + 1)).

(** [switch (n & 0x3)] with its three cases falling through. *)
Definition push_switch (objs : list handle) (n : Z) (s : list handle * Z * Z)
  : outcome (list handle * Z * Z) :=
  match Z.land n 0x3 with
  | 3 => s ← push_step objs s; s ← push_step objs s; push_step objs s
  | 2 => s ← push_step objs s; push_step objs s
  | 1 => push_step objs s
  | _ => Done s
  end.

(** [for (i = 0; idx < size; i++, idx++) r->ring[idx] = objs[i];]. *)
Fixpoint push_to_end (fuel : nat) (ring objs : list handle) (size i idx : Z)
  : outcome (list handle * Z) :=
  if idx <? size then
    match fuel with
    | O => Spin
    | S fuel =>
        ring ← copy_slot objs ring i idx;
        push_to_end fuel ring objs size (u32 (i + 1)) (u32 (idx + 1))
    end
  else Done (ring, i).

(** [for (idx = 0; i < n; i++, idx++) r->ring[idx] = objs[i];]. *)
Fixpoint push_from_start (fuel : nat) (ring objs : list handle) (n i idx : Z)
  : outcome (list handle) :=
  if i <? n then
    match fuel with
    | O => Spin
    | S fuel =>
        ring ← copy_slot objs ring i idx;
        push_from_start fuel ring objs n (u32 (i + 1)) (u32 (idx + 1))
    end
  else Done ring.

(** [PUSH_PTRS()], in the scope of [r], [objs], [prod_head], [mask] and [n];
    the result is the slot array after the macro.  The fuel given to each
    loop is the largest number of rounds its condition allows. *)
Definition PUSH_PTRS (r : ring) (objs : list handle) (prod_head mask n : Z)
  : outcome (list handle) :=
  let size := Prod.size (prod r) in
  let idx := Z.land prod_head mask in
  if u32 (idx + n) <? size then
    s ← push_unrolled (Z.to_nat n) (slots r) objs n 0 idx;
    '(ring, _, _) ← push_switch objs n s;
    Done ring
  else
    '(ring, i) ← push_to_end (Z.to_nat size) (slots r) objs size 0 idx;
    push_from_start (Z.to_nat n) ring objs n i 0.

(** The unrolled loop of [POP_PTRS]. *)
Fixpoint pop_unrolled (fuel : nat) (ring objs : list handle) (n i idx : Z)
  : outcome (list handle * Z * Z) :=
  if i <? Z.land n NOT3 then
    match fuel with
    | O => Spin
    | S fuel =>
        objs ← copy_slot ring objs idx i;
        objs ← copy_slot ring objs (u32 (idx + 1)) (u32 (i + 1));
        objs ← copy_slot ring objs (u32 (idx + 2)) (u32 (i + 2));
        objs ← copy_slot ring objs (u32 (idx + 3)) (u32 (i + 3));
        pop_unrolled fuel ring objs n (u32 (i + 4)) (u32 (idx + 4))
    end
  else Done (objs, i, idx).

(** [objs[i++] = r->ring[idx++];]. *)
Definition pop_step (ring : list handle) (s : list handle * Z * Z)
  : outcome (list handle * Z * Z) :=
  let '(objs, i, idx) := s in
  objs ← copy_slot ring objs idx i;
  Done (objs, u32 (i + 1), u32 (idx + 1)).

Definition pop_switch (ring : list handle) (n : Z) (s : list handle * Z * Z)
  : outcome (list handle * Z * Z) :=
  match Z.land n 0x3 with
  | 3 => s ← pop_step ring s; s ← pop_step ring s; pop_step ring s
  | 2 => s ← pop_step ring s; pop_step ring s
  | 1 => pop_step ring s
  | _ => Done s
  end.

(** [for (i = 0; idx < size; i++, idx++) objs[i] = r->ring[idx];]. *)
Fixpoint pop_to_end (fuel : nat) (ring objs : list handle) (size i idx : Z)
  : outcome (list handle * Z) :=
  if idx <? size then
    match fuel with
    | O => Spin
    | S fuel =>
        objs ← copy_slot ring objs idx i;
        pop_to_end fuel ring objs size (u32 (i + 1)) (u32 (idx + 1))
    end
  else Done (objs, i).

(** [for (idx = 0; i < n; i++, idx++) objs[i] = r->ring[idx];]. *)
Fixpoint pop_from_start (fuel : nat) (ring objs : list handle) (n i idx : Z)
  : outcome (list handle) :=
  if i <? n then
    match fuel with
    | O => Spin
    | S fuel =>
        objs ← copy_slot ring objs idx i;
        pop_from_start fuel ring objs n (u32 (i + 1)) (u32 (idx + 1))
    end
  else Done objs.

(** [POP_PTRS()], in the scope of [r], [objs], [cons_head], [mask] and [n];
    the result is the caller's buffer after the macro. *)
Definition POP_PTRS (r : ring) (objs : list handle) (cons_head mask n : Z)
  : outcome (list handle) :=
  let idx := Z.land cons_head mask in
  let size := Cons.size (cons r) in
  if u32 (idx + n) <? size then
    s ← pop_unrolled (Z.to_nat n) (slots r) objs n 0 idx;
    '(objs, _, _) ← pop_switch (slots r) n s;
    Done objs
  else
    '(objs, i) ← pop_to_end (Z.to_nat size) (slots r) objs size 0 idx;
    pop_from_start (Z.to_nat n) (slots r) objs n i 0.

(** ** Push *)

(** The part of [ring_sp_push] after the adjustment of [n]: reserve, copy,
    publish. *)
Definition sp_push_commit (r : ring) (objs : list handle) (prod_head mask n : Z)
  : outcome (ring * Z) :=
  let prod_next := u32 (prod_head + n) in
  let r := set_prod_head r prod_next in
  ring ← PUSH_PTRS r objs prod_head mask n;
  let r := set_slots r ring in
  let r := set_prod_tail r prod_next in
  Done (r, n).

(** Single producer push on the ring. *)
Definition ring_sp_push (r : ring) (objs : list handle) (n behavior : Z)
  : outcome (ring * Z) :=
  let mask := Prod.mask (prod r) in
  let prod_head := Prod.head (prod r) in
  let cons_tail := Cons.tail (cons r) in
  let avail := u32 (mask + cons_tail - prod_head) in
  if avail <? n then
    if behavior =? RING_B_FIXED then Done (r, 0)
    else if avail =? 0 then Done (r, 0)
    else sp_push_commit r objs prod_head mask avail
  else sp_push_commit r objs prod_head mask n.

(** [__sync_bool_compare_and_swap(p, o, n)] on the current value of [*p]:
    the new value of [*p] and whether the swap took place. *)
Definition CAS (cur o n : Z) : Z * bool :=
  if cur =? o then (n, true) else (cur, false).

(** The [do { ... } while (!ok)] loop of [ring_mp_push], with no other
    thread running: [None] is the [return 0] inside the loop, [Some] carries
    the ring after the swap, [prod_head], [prod_next] and the adjusted [n]. *)
Fixpoint mp_push_reserve (fuel : nat) (r : ring) (max behavior : Z)
  : outcome (option (ring * Z * Z * Z)) :=
  match fuel with
  | O => Spin
  | S fuel =>
      let mask := Prod.mask (prod r) in
      let n := max in
      let prod_head := Prod.head (prod r) in
      let cons_tail := Cons.tail (cons r) in
      let avail := u32 (mask + cons_tail - prod_head) in
      let try (n : Z) :=
        let prod_next := u32 (prod_head + n) in
        let '(cur, ok) := CAS (Prod.head (prod r)) prod_head prod_next in
        let r := set_prod_head r cur in
        if ok then Done (Some (r, prod_head, prod_next, n))
        else mp_push_reserve fuel r max behavior in
      if avail <? n then
        if behavior =? RING_B_FIXED then Done None
        else if avail =? 0 then Done None
        else try avail
      else try n
  end.

(** [while (side.tail != head) { _mm_pause(); ... }] with no other thread
    running: nothing changes the tail between two rounds. *)
Fixpoint spin_until (fuel : nat) (tail head : Z) : outcome unit :=
  if negb (tail =? head) then
    match fuel with
    | O => Spin
    | S fuel => spin_until fuel tail head
    end
  else Done tt.

(** Multi producer push on the ring, run with no other thread. *)
Definition ring_mp_push (fuel : nat) (r : ring) (objs : list handle) (n behavior : Z)
  : outcome (ring * Z) :=
  let mask := Prod.mask (prod r) in
  res ← mp_push_reserve fuel r n behavior;
  match res with
  | None => Done (r, 0)
  | Some (r, prod_head, prod_next, n) =>
      ring ← PUSH_PTRS r objs prod_head mask n;
      let r := set_slots r ring in
      _ ← spin_until fuel (Prod.tail (prod r)) prod_head;
      let r := set_prod_tail r prod_next in
      Done (r, n)
  end.

Definition ring_push (fuel : nat) (r : ring) (objs : list handle) (n behavior : Z)
  : outcome (ring * Z) :=
  if negb (Prod.sp (prod r) =? 0) then ring_sp_push r objs n behavior
  else ring_mp_push fuel r objs n behavior.

(** ** Pop *)

Definition sc_pop_commit (r : ring) (objs : list handle) (cons_head mask n : Z)
  : outcome (ring * list handle * Z) :=
  let cons_next := u32 (cons_head + n) in
  let r := set_cons_head r cons_next in
  objs ← POP_PTRS r objs cons_head mask n;
  let r := set_cons_tail r cons_next in
  Done (r, objs, n).

(** Single consumer pop on the ring: the ring, the caller's buffer and the
    returned count. *)
Definition ring_sc_pop (r : ring) (objs : list handle) (n behavior : Z)
  : outcome (ring * list handle * Z) :=
  let mask := Prod.mask (prod r) in
  let cons_head := Cons.head (cons r) in
  let prod_tail := Prod.tail (prod r) in
  let avail := u32 (prod_tail - cons_head) in
  if avail <? n then
    if behavior =? RING_B_FIXED then Done (r, objs, 0)
    else if avail =? 0 then Done (r, objs, 0)
    else sc_pop_commit r objs cons_head mask avail
  else sc_pop_commit r objs cons_head mask n.

Fixpoint mc_pop_reserve (fuel : nat) (r : ring) (max behavior : Z)
  : outcome (option (ring * Z * Z * Z)) :=
  match fuel with
  | O => Spin
  | S fuel =>
      let n := max in
      let cons_head := Cons.head (cons r) in
      let prod_tail := Prod.tail (prod r) in
      let avail := u32 (prod_tail - cons_head) in
      let try (n : Z) :=
        let cons_next := u32 (cons_head + n) in
        let '(cur, ok) := CAS (Cons.head (cons r)) cons_head cons_next in
        let r := set_cons_head r cur in
        if ok then Done (Some (r, cons_head, cons_next, n))
        else mc_pop_reserve fuel r max behavior in
      if avail <? n then
        if behavior =? RING_B_FIXED then Done None
        else if avail =? 0 then Done None
        else try avail
      else try n
  end.

(** Multi consumer pop on the ring, run with no other thread. *)
Definition ring_mc_pop (fuel : nat) (r : ring) (objs : list handle) (n behavior : Z)
  : outcome (ring * list handle * Z) :=
  let mask := Prod.mask (prod r) in
  res ← mc_pop_reserve fuel r n behavior;
  match res with
  | None => Done (r, objs, 0)
  | Some (r, cons_head, cons_next, n) =>
      objs ← POP_PTRS r objs cons_head mask n;
      _ ← spin_until fuel (Cons.tail (cons r)) cons_head;
      let r := set_cons_tail r cons_next in
      Done (r, objs, n)
  end.

Definition ring_pop (fuel : nat) (r : ring) (objs : list handle) (n behavior : Z)
  : outcome (ring * list handle * Z) :=
  if negb (Cons.sc (cons r) =? 0) then ring_sc_pop r objs n behavior
  else ring_mc_pop fuel r objs n behavior.

(** ** Rounding helpers *)

Definition UINT64_MOD : Z := 2 ^ 64.

(** Reduction of an arithmetic result to [uint64_t]. *)
Definition u64 (x : Z) : Z := x mod UINT64_MOD.

Definition is_u64 (x : Z) : Prop := 0 <= x < UINT64_MOD.

(** Align x to next power of 2. *)
Definition align32_pow2 (x : Z) : Z :=
  let x := u32 (x - 1) in
  let x := Z.lor x (Z.shiftr x 1) in
  let x := Z.lor x (Z.shiftr x 2) in
  let x := Z.lor x (Z.shiftr x 4) in
  let x := Z.lor x (Z.shiftr x 8) in
  let x := Z.lor x (Z.shiftr x 16) in
  u32 (x + 1).

(** Align 64bit x to next power of 2. *)
Definition align64_pow2 (x : Z) : Z :=
  let x := u64 (x - 1) in
  let x := Z.lor x (Z.shiftr x 1) in
  let x := Z.lor x (Z.shiftr x 2) in
  let x := Z.lor x (Z.shiftr x 4) in
  let x := Z.lor x (Z.shiftr x 8) in
  let x := Z.lor x (Z.shiftr x 16) in
  let x := Z.lor x (Z.shiftr x 32) in
  u64 (x + 1).

(** Bit [k] of [z] is set exactly when one of the [w] bits of [y] from [k]
    upwards is: what the or-and-shift steps of the rounding helpers build. *)
Definition smeared (y w z : Z) : Prop :=
  ∀ k, 0 <= k →
    (Z.testbit z k = true ↔ ∃ j, 0 <= j < w ∧ Z.testbit y (k + j) = true).

(** ** Sequences of operations *)

(** A call of [ring_push] or [ring_pop] with its arguments: the caller's
    buffer, [n] and [behavior]. *)
Inductive op : Type :=
| Push (objs : list handle) (n behavior : Z)
| Pop (objs : list handle) (n behavior : Z).

(** The caller's side of a call: [n] is an [unsigned] and the buffer has
    room for [n] handles. *)
Definition op_ok (o : op) : bool :=
  match o with
  | Push objs n _ | Pop objs n _ =>
      (0 <=? n) && (n <? UINT32_MOD) && (n <=? Z.of_nat (length objs))
  end.

(** The calls run one after the other.  [pushed] collects the handles each
    push reports as taken (the first [k] of its buffer, for a return value
    [k]); [popped] collects the handles each pop reports as delivered. *)
Fixpoint run (fuel : nat) (ops : list op) (r : ring) (pushed popped : list handle)
  : outcome (ring * list handle * list handle) :=
  match ops with
  | [] => Done (r, pushed, popped)
  | Push objs n behavior :: ops =>
      '(r, k) ← ring_push fuel r objs n behavior;
      run fuel ops r (pushed ++ take (Z.to_nat k) objs) popped
  | Pop objs n behavior :: ops =>
      '(r, objs, k) ← ring_pop fuel r objs n behavior;
      run fuel ops r pushed (popped ++ take (Z.to_nat k) objs)
  end.

(** ** Specification vocabulary *)

Definition is_pow2 (x : Z) : Prop := ∃ k, 0 <= k ∧ x = 2 ^ k.

(** What the caller owes [ring_init]: a power-of-two [count] that fits an
    [unsigned], and memory for [count] slots after the header. *)
Definition init_ok (r0 : ring) (count : Z) : Prop :=
  is_pow2 count ∧ count < UINT32_MOD ∧ count <= Z.of_nat (length (slots r0)).

(** The state of a ring between two operations. *)
Record ring_inv (r : ring) : Prop := mk_ring_inv
  { inv_size : is_pow2 (Prod.size (prod r));
    inv_size_u32 : Prod.size (prod r) < UINT32_MOD;
    inv_mask : Prod.mask (prod r) = Prod.size (prod r) - 1;
    inv_cons_size : Cons.size (cons r) = Prod.size (prod r);
    inv_cons_mask : Cons.mask (cons r) = Prod.mask (prod r);
    inv_prod_quiet : Prod.head (prod r) = Prod.tail (prod r);
    inv_cons_quiet : Cons.head (cons r) = Cons.tail (cons r);
    inv_prod_tail : is_u32 (Prod.tail (prod r));
    inv_cons_tail : is_u32 (Cons.tail (cons r));
    inv_held : u32 (Prod.tail (prod r) - Cons.tail (cons r)) <= Prod.size (prod r) - 1;
    inv_slots : Prod.size (prod r) <= Z.of_nat (length (slots r)) }.

(** The slot a counter value designates. *)
Definition slot_at (r : ring) (c : Z) : handle :=
  default 0 (slots r !! Z.to_nat (Z.land c (Prod.mask (prod r)))).

(** The handles the ring holds, oldest first: the slots from [cons.tail] up
    to [prod.tail]. *)
Definition contents (r : ring) : list handle :=
  (fun j => slot_at r (Cons.tail (cons r) + j)) <$> seqZ 0 (ring_count r).

(** A state reached from an initialised ring by a sequence of calls. *)
Definition reachable (r : ring) : Prop :=
  ∃ r0 count flags fuel ops pushed popped,
    init_ok r0 count ∧ forallb op_ok ops = true ∧
    run fuel ops (ring_init r0 count flags) [] [] = Done (r, pushed, popped).

(** The same with the single-producer and single-consumer flags set, and
    with the handles pushed and popped on the way. *)
Definition spsc_reachable (r : ring) (pushed popped : list handle) : Prop :=
  ∃ r0 count fuel ops,
    init_ok r0 count ∧ forallb op_ok ops = true ∧
    run fuel ops (ring_init r0 count (Z.lor RING_F_SP RING_F_SC)) [] []
      = Done (r, pushed, popped).

(** The range of [n] handles copied from [src] at [si] to [dst] at [di]. *)
Fixpoint copy_range (src dst : list handle) (si di : nat) (n : nat) : list handle :=
  match n with
  | O => dst
  | S n =>
      match src !! si with
      | Some v => copy_range src (<[di := v]> dst) (S si) (S di) n
      | None => dst
      end
  end.

(** What [PUSH_PTRS] leaves in the slot array: one range when
    [idx + n < size], else the range up to [size] followed by the rest from
    slot 0. *)
Definition wrapped_write (objs ring : list handle) (idx size n : Z) : list handle :=
  if idx + n <? size then
    copy_range objs ring 0 (Z.to_nat idx) (Z.to_nat n)
  else
    copy_range objs
      (copy_range objs ring 0 (Z.to_nat idx) (Z.to_nat (size - idx)))
      (Z.to_nat (size - idx)) 0 (Z.to_nat (n - (size - idx))).

(** What [POP_PTRS] leaves in the caller's buffer. *)
Definition wrapped_read (ring objs : list handle) (idx size n : Z) : list handle :=
  if idx + n <? size then
    copy_range ring objs (Z.to_nat idx) 0 (Z.to_nat n)
  else
    copy_range ring
      (copy_range ring objs (Z.to_nat idx) 0 (Z.to_nat (size - idx)))
      0 (Z.to_nat (size - idx)) (Z.to_nat (n - (size - idx))).

(** The count a push or pop grants for a request of [n] when [avail] can
    be had: all of it, or under [RING_B_FIXED] nothing and otherwise what
    there is. *)
Definition grant (n avail behavior : Z) : Z :=
  if avail <? n then
    if behavior =? RING_B_FIXED then 0 else avail
  else n.

(** The ring after the first [k] handles of [objs] went in. *)
Definition pushed_ring (r : ring) (objs : list handle) (k : Z) : ring :=
  let prod_head := Prod.head (prod r) in
  let size := Prod.size (prod r) in
  let prod_next := u32 (prod_head + k) in
  set_prod_tail
    (set_slots (set_prod_head r prod_next)
       (wrapped_write objs (slots r) (prod_head mod size) size k))
    prod_next.

(** The ring after [k] handles came out, and the caller's buffer then. *)
Definition popped_ring (r : ring) (k : Z) : ring :=
  let cons_next := u32 (Cons.head (cons r) + k) in
  set_cons_tail (set_cons_head r cons_next) cons_next.

Definition popped_objs (r : ring) (objs : list handle) (k : Z) : list handle :=
  let size := Prod.size (prod r) in
  wrapped_read (slots r) objs (Cons.head (cons r) mod size) size k.

(** No reservation is pending on either side. *)
Definition quiet (r : ring) : Prop :=
  Prod.head (prod r) = Prod.tail (prod r) ∧ Cons.head (cons r) = Cons.tail (cons r).

(** A quiet ring together with the handles pushed and popped so far: what
    was pushed is what was popped followed by what the ring holds. *)
Definition fifo_inv (r : ring) (pushed popped : list handle) : Prop :=
  ring_inv r ∧ pushed = popped ++ contents r.

(** The loops of the multi paths need fuel; the single paths have none. *)
Definition can_run (fuel : nat) (r : ring) : Prop :=
  fuel ≠ 0%nat ∨ (Prod.sp (prod r) ≠ 0 ∧ Cons.sc (cons r) ≠ 0).

(** A push moved the first [k] handles of [objs] into [r], giving [r']. *)
Definition push_moves (r : ring) (objs : list handle) (k : Z) (r' : ring) : Prop :=
  contents r' = contents r ++ take (Z.to_nat k) objs ∧
  ring_count r' = ring_count r + k ∧
  cons r' = cons r.

(** A pop moved the [k] oldest handles of [r] to the front of the buffer
    [objs], giving [r'] and the buffer [objs']. *)
Definition pop_moves (r : ring) (objs : list handle) (k : Z)
    (r' : ring) (objs' : list handle) : Prop :=
  objs' = take (Z.to_nat k) (contents r) ++ drop (Z.to_nat k) objs ∧
  contents r' = drop (Z.to_nat k) (contents r) ∧
  ring_count r' = ring_count r - k ∧
  prod r' = prod r ∧ slots r' = slots r.

(** What [RING_B_FIXED] promises of a push result [res] when [avail] slots
    are free: all [n] handles, or nothing and no change. *)
Definition all_or_nothing_push (r : ring) (objs : list handle) (n avail : Z)
    (res : outcome (ring * Z)) : Prop :=
  (n <= avail → ∃ r', res = Done (r', n) ∧ push_moves r objs n r') ∧
  (avail < n → res = Done (r, 0)).

Definition all_or_nothing_pop (r : ring) (objs : list handle) (n avail : Z)
    (res : outcome (ring * list handle * Z)) : Prop :=
  (n <= avail → ∃ r' objs', res = Done (r', objs', n) ∧ pop_moves r objs n r' objs') ∧
  (avail < n → res = Done (r, objs, 0)).

(** What [RING_B_VARIABLE] promises: [min n avail] handles when there is
    room for some, nothing and no change when there is none. *)
Definition best_effort_push (r : ring) (objs : list handle) (n avail : Z)
    (res : outcome (ring * Z)) : Prop :=
  (0 < avail →
   ∃ r', res = Done (r', Z.min n avail) ∧ push_moves r objs (Z.min n avail) r') ∧
  (avail = 0 → res = Done (r, 0)).

Definition best_effort_pop (r : ring) (objs : list handle) (n avail : Z)
    (res : outcome (ring * list handle * Z)) : Prop :=
  (0 < avail →
   ∃ r' objs', res = Done (r', objs', Z.min n avail) ∧
               pop_moves r objs (Z.min n avail) r' objs') ∧
  (avail = 0 → res = Done (r, objs, 0)).

(** ** Example states *)

(** Caller memory for a ring of [count] slots, before [ring_init]. *)
Definition fresh_memory (count : nat) : ring :=
  mkring (Prod.mk 0 0 0 0 0) (Cons.mk 0 0 0 0 0) (replicate count 0).

(** A ring of 8 slots whose producer counter has wrapped past [2^32 - 1]
    while the consumer counter has not: it holds the five handles 13, 14,
    15, 10, 11 in slots 5, 6, 7, 0, 1. *)
Definition wrapped_tails : ring :=
  mkring (Prod.mk 1 8 7 2 2) (Cons.mk 1 8 7 4294967293 4294967293)
         [10; 11; 12; 0; 0; 13; 14; 15].

(** Three calls on a ring of 4 slots, and the state they lead to. *)
Definition three_calls : list op :=
  [Push [10; 11; 12] 3 RING_B_FIXED; Push [13] 1 RING_B_FIXED;
   Pop [0; 0] 2 RING_B_FIXED].

Definition after_three_calls : ring :=
  mkring (Prod.mk 1 4 3 3 3) (Cons.mk 1 4 3 2 2) [10; 11; 12; 0].

(** A full ring of 4 slots on which another producer holds a reservation it
    has not published: [prod.head] is ahead of [prod.tail]. *)
Definition pending_push : ring :=
  mkring (Prod.mk 0 4 3 3 2) (Cons.mk 0 4 3 0 0) [10; 11; 0; 0].

(** An empty ring of 4 slots on which another consumer holds a reservation
    it has not published. *)
Definition pending_pop : ring :=
  mkring (Prod.mk 0 4 3 2 2) (Cons.mk 0 4 3 2 1) [10; 11; 0; 0].


(** * Proofs *)

(** ** Arithmetic of wrapping counters *)

Section Arith.

Lemma UINT32_MOD_eq : UINT32_MOD = 4294967296.
Proof. reflexivity. Qed.

Lemma u32_range x : is_u32 (u32 x).
Proof. unfold is_u32, u32. rewrite UINT32_MOD_eq. apply Z.mod_pos_bound. lia. Qed.

Lemma u32_small x : is_u32 x → u32 x = x.
Proof. unfold is_u32, u32. intros H. apply Z.mod_small. exact H. Qed.

Lemma pow2_pos s : is_pow2 s → 0 < s.
Proof. intros (k & Hk & ->). apply Z.pow_pos_nonneg; lia. Qed.

Lemma pow2_land s x : is_pow2 s → Z.land x (s - 1) = x mod s.
Proof.
  intros (k & Hk & ->).
  rewrite <- Z.land_ones by exact Hk.
  rewrite Z.ones_equiv. reflexivity.
Qed.

Lemma pow2_divide_u32 s : is_pow2 s → s < UINT32_MOD → (s | UINT32_MOD).
Proof.
  intros (k & Hk & ->) Hlt. unfold UINT32_MOD in *.
  assert (k < 32) by (apply (Z.pow_lt_mono_r_iff 2); lia).
  exists (2 ^ (32 - k)). rewrite <- Z.pow_add_r by lia. f_equal. lia.
Qed.

Lemma pow2_le_half s : is_pow2 s → s < UINT32_MOD → 2 * s <= UINT32_MOD.
Proof.
  intros (k & Hk & ->) Hlt. unfold UINT32_MOD in *.
  assert (k < 32) by (apply (Z.pow_lt_mono_r_iff 2); lia).
  replace 32 with (Z.succ 31) by lia. rewrite Z.pow_succ_r by lia.
  apply Z.mul_le_mono_nonneg_l; [lia|].
  apply Z.pow_le_mono_r; lia.
Qed.

(** Reducing modulo [2^32] first does not change the index. *)
Lemma u32_mod s x : is_pow2 s → s < UINT32_MOD → u32 x mod s = x mod s.
Proof.
  intros Hs Hlt. unfold u32.
  apply Z.mod_mod_divide. apply pow2_divide_u32; assumption.
Qed.

Lemma mod_compl s x : 0 < s → (- x - 1) mod s = s - 1 - x mod s.
Proof.
  intros Hs. symmetry.
  apply (Z.mod_unique_pos _ _ (- (x / s) - 1)).
  - pose proof (Z.mod_pos_bound x s Hs). lia.
  - pose proof (Z.div_mod x s). nia.
Qed.

Lemma mod_add_small s a d : 0 < s → 0 <= a mod s + d < s → (a + d) mod s = a mod s + d.
Proof.
  intros Hs Hd. symmetry.
  apply (Z.mod_unique_pos _ _ (a / s)); [exact Hd|].
  pose proof (Z.div_mod a s). lia.
Qed.

Lemma mod_add_wrap s a d :
  0 < s → s <= a mod s + d < 2 * s → (a + d) mod s = a mod s + d - s.
Proof.
  intros Hs Hd. symmetry.
  apply (Z.mod_unique_pos _ _ (a / s + 1)); [lia|].
  pose proof (Z.div_mod a s). lia.
Qed.

(** Two counters less than [s] apart designate different slots. *)
Lemma mod_apart s a d : 0 < s → 0 < d < s → (a + d) mod s ≠ a mod s.
Proof.
  intros Hs Hd Heq.
  pose proof (Z.mod_pos_bound a s Hs).
  destruct (Z_lt_le_dec (a mod s + d) s).
  - rewrite mod_add_small in Heq by lia. lia.
  - rewrite mod_add_wrap in Heq by lia. lia.
Qed.

Lemma land_NOT3 n : is_u32 n → Z.land n NOT3 = 4 * (n / 4).
Proof.
  intros Hn.
  replace (4 * (n / 4)) with (Z.shiftl (Z.shiftr n 2) 2)
    by (rewrite Z.shiftl_mul_pow2, Z.shiftr_div_pow2 by lia; change (2 ^ 2) with 4; lia).
  apply Z.bits_inj'. intros k Hk.
  rewrite Z.land_spec.
  destruct (Z_lt_le_dec k 2) as [Hlo|Hhi].
  - rewrite Z.shiftl_spec_low by exact Hlo.
    assert (k = 0 ∨ k = 1) as [-> | ->] by lia; apply andb_false_r.
  - rewrite Z.shiftl_spec by lia. rewrite Z.shiftr_spec by lia.
    replace (k - 2 + 2) with k by lia.
    destruct (Z_lt_le_dec k 32) as [Hk32|Hk32].
    + replace NOT3 with (Z.shiftl (Z.ones 30) 2) by reflexivity.
      rewrite Z.shiftl_spec by lia.
      rewrite Z.ones_spec_low by lia. apply andb_true_r.
    + replace (Z.testbit n k) with false; [reflexivity|].
      rewrite <- (u32_small n Hn). unfold u32, UINT32_MOD.
      symmetry. apply Z.mod_pow2_bits_high. lia.
Qed.

Lemma land_3 n : Z.land n 3 = n mod 4.
Proof. apply (Z.land_ones n 2). lia. Qed.

Lemma POWEROF2_pow2 x : 0 < x < UINT32_MOD → POWEROF2 x = true ↔ is_pow2 x.
Proof.
  intros Hx. unfold POWEROF2.
  rewrite u32_small by (unfold is_u32; lia).
  rewrite Z.eqb_eq. split.
  - intros Hland. exists (Z.log2 x).
    pose proof (Z.log2_nonneg x) as Hk.
    destruct (Z.log2_spec x) as [Hlo Hhi]; [lia|].
    split; [exact Hk|].
    destruct (Z.eq_dec x (2 ^ Z.log2 x)) as [|Hne]; [assumption|exfalso].
    assert (Z.log2 (x - 1) = Z.log2 x) as Hlog
      by (apply Z.log2_unique; [exact Hk | lia]).
    assert (Z.testbit (Z.land (x - 1) x) (Z.log2 x) = true) as Hbit.
    { rewrite Z.land_spec. rewrite <- Hlog at 1.
      rewrite !Z.bit_log2 by lia. reflexivity. }
    rewrite Hland, Z.bits_0 in Hbit. discriminate.
  - intros (k & Hk & ->).
    replace (2 ^ k - 1) with (Z.ones k) by (rewrite Z.ones_equiv; lia).
    rewrite Z.land_comm, Z.land_ones by exact Hk.
    apply Z.mod_same. apply Z.pow_nonzero; lia.
Qed.

End Arith.

(** ** Copying a range *)

Section CopyRange.

Implicit Types src dst : list handle.

Lemma bind_Done {A B} (a : A) (f : A → outcome B) : mbind f (Done a) = f a.
Proof. reflexivity. Qed.

Lemma length_copy_range src dst si di n :
  length (copy_range src dst si di n) = length dst.
Proof.
  revert dst si di. induction n as [|n IH]; intros dst si di; simpl; [reflexivity|].
  destruct (src !! si); [|reflexivity].
  rewrite IH. apply length_insert.
Qed.

Lemma copy_range_lookup_out src dst si di n j :
  (j < di ∨ di + n <= j)%nat →
  copy_range src dst si di n !! j = dst !! j.
Proof.
  revert dst si di. induction n as [|n IH]; intros dst si di Hj; simpl; [reflexivity|].
  destruct (src !! si); [|reflexivity].
  rewrite IH by lia. apply list_lookup_insert_ne. lia.
Qed.

Lemma copy_range_lookup_in src dst si di n j :
  (si + n <= length src)%nat → (di + n <= length dst)%nat →
  (di <= j < di + n)%nat →
  copy_range src dst si di n !! j = src !! (si + (j - di))%nat.
Proof.
  revert dst si di. induction n as [|n IH]; intros dst si di Hs Hd Hj; simpl; [lia|].
  destruct (src !! si) as [v|] eqn:Hv.
  - destruct (decide (j = di)) as [->|Hne].
    + rewrite copy_range_lookup_out by lia.
      rewrite list_lookup_insert_eq by lia.
      replace (si + (di - di))%nat with si by lia. symmetry. exact Hv.
    + rewrite IH.
      * f_equal. lia.
      * lia.
      * rewrite length_insert. lia.
      * lia.
  - apply lookup_ge_None in Hv. lia.
Qed.

Lemma copy_range_app src dst si di n m :
  (si + n <= length src)%nat →
  copy_range src dst si di (n + m)
  = copy_range src (copy_range src dst si di n) (si + n) (di + n) m.
Proof.
  revert dst si di. induction n as [|n IH]; intros dst si di Hs; simpl.
  - rewrite !Nat.add_0_r. reflexivity.
  - destruct (src !! si) as [v|] eqn:Hv.
    + rewrite IH by lia. f_equal; lia.
    + apply lookup_ge_None in Hv. lia.
Qed.

(** One assignment is one step of the range copy. *)
Lemma copy_slot_step src dst si di (a b k : nat) :
  a = Z.to_nat si → b = Z.to_nat di → 0 <= si → 0 <= di → (0 < k)%nat →
  si < Z.of_nat (length src) → di < Z.of_nat (length dst) →
  ∃ dst', copy_slot src dst si di = Done dst' ∧
    length dst' = length dst ∧
    copy_range src dst a b k = copy_range src dst' (S a) (S b) (k - 1).
Proof.
  intros -> -> Hsi Hdi Hk Hs Hd.
  destruct (lookup_lt_is_Some_2 src (Z.to_nat si)) as [v Hv]; [lia|].
  exists (<[Z.to_nat di := v]> dst). split; [|split].
  - unfold copy_slot, load, store. rewrite Hv.
    rewrite bind_Done.
    destruct (Z.ltb_spec di (Z.of_nat (length dst))); [reflexivity|lia].
  - apply length_insert.
  - destruct k as [|k]; [lia|].
    simpl. rewrite Hv, Nat.sub_0_r. reflexivity.
Qed.

End CopyRange.

(** ** The loops of the two macros *)

(** Run the next assignment of a loop body as a step of the range copy the
    goal states. *)
Ltac copy_one :=
  match goal with
  | |- context [copy_slot ?s ?d ?si ?di] =>
      match goal with
      | |- context [copy_range s d ?a ?b ?k] =>
          let d' := fresh "d" in
          let Hc := fresh "Hc" in
          let Hl := fresh "Hl" in
          let Hr := fresh "Hr" in
          destruct (copy_slot_step s d si di a b k) as (d' & Hc & Hl & Hr);
          [lia..|];
          rewrite Hc, bind_Done, Hr; clear Hc Hr
      end
  end.

(** Drop the reductions modulo [2^32] of values that are in range. *)
Ltac no_wrap :=
  repeat match goal with
    | |- context [u32 ?x] => rewrite (u32_small x) by (unfold is_u32; lia)
    end.

Ltac next_step := rewrite bind_Done; cbv beta iota; no_wrap.

(** Equal results up to the arithmetic of their arguments. *)
Ltac eq_args := repeat first [lia | reflexivity | progress f_equal].

Section PushLoops.

Implicit Types ring objs : list handle.

Lemma push_to_end_spec fuel ring objs size i idx :
  0 <= i → 0 <= idx <= size → size - idx <= Z.of_nat fuel →
  size <= Z.of_nat (length ring) → size < UINT32_MOD →
  i + (size - idx) <= Z.of_nat (length objs) → i + (size - idx) < UINT32_MOD →
  push_to_end fuel ring objs size i idx
  = Done (copy_range objs ring (Z.to_nat i) (Z.to_nat idx) (Z.to_nat (size - idx)),
          i + (size - idx)).
Proof.
  revert ring i idx.
  induction fuel as [|fuel IH]; intros ring i idx Hi Hidx Hfuel Hring Hsz Hobjs Hwrap;
    simpl; destruct (Z.ltb_spec idx size) as [Hlt|Hge]; try lia.
  - replace (size - idx) with 0 by lia. rewrite Z.add_0_r. reflexivity.
  - copy_one. no_wrap.
    rewrite IH by lia. eq_args.
  - replace (size - idx) with 0 by lia. rewrite Z.add_0_r. reflexivity.
Qed.

Lemma push_from_start_spec fuel ring objs n i idx :
  0 <= i <= n → 0 <= idx → n - i <= Z.of_nat fuel →
  n <= Z.of_nat (length objs) → n < UINT32_MOD →
  idx + (n - i) <= Z.of_nat (length ring) → idx + (n - i) < UINT32_MOD →
  push_from_start fuel ring objs n i idx
  = Done (copy_range objs ring (Z.to_nat i) (Z.to_nat idx) (Z.to_nat (n - i))).
Proof.
  revert ring i idx.
  induction fuel as [|fuel IH]; intros ring i idx Hi Hidx Hfuel Hobjs Hn Hring Hwrap;
    simpl; destruct (Z.ltb_spec i n) as [Hlt|Hge]; try lia.
  - replace (n - i) with 0 by lia. reflexivity.
  - copy_one. no_wrap.
    rewrite IH by lia. eq_args.
  - replace (n - i) with 0 by lia. reflexivity.
Qed.

Lemma push_unrolled_spec fuel ring objs n i idx :
  is_u32 n → 0 <= i <= 4 * (n / 4) → i mod 4 = 0 → 0 <= idx →
  4 * (n / 4) - i <= 4 * Z.of_nat fuel →
  4 * (n / 4) <= Z.of_nat (length objs) →
  idx + (4 * (n / 4) - i) <= Z.of_nat (length ring) →
  idx + (4 * (n / 4) - i) < UINT32_MOD →
  push_unrolled fuel ring objs n i idx
  = Done (copy_range objs ring (Z.to_nat i) (Z.to_nat idx) (Z.to_nat (4 * (n / 4) - i)),
          4 * (n / 4), idx + (4 * (n / 4) - i)).
Proof.
  intros Hn. revert ring i idx.
  induction fuel as [|fuel IH]; intros ring i idx Hi Hi4 Hidx Hfuel Hobjs Hring Hwrap;
    simpl; rewrite land_NOT3 by exact Hn;
    destruct (Z.ltb_spec i (4 * (n / 4))) as [Hlt|Hge]; try lia.
  - replace i with (4 * (n / 4)) by lia. rewrite Z.sub_diag, Z.add_0_r. reflexivity.
  - assert (i + 4 <= 4 * (n / 4)) by (apply Z.mod_divide in Hi4; [destruct Hi4; lia | lia]).
    assert (4 * (n / 4) <= n) by (apply Z.mul_div_le; lia).
    unfold is_u32 in Hn.
    copy_one. no_wrap.
    copy_one. no_wrap.
    copy_one. no_wrap.
    copy_one. no_wrap.
    rewrite IH.
    + eq_args.
    + lia.
    + replace (i + 4) with (i + 1 * 4) by lia. rewrite Z.mod_add by lia. exact Hi4.
    + lia.
    + lia.
    + lia.
    + lia.
    + lia.
  - replace i with (4 * (n / 4)) by lia. rewrite Z.sub_diag, Z.add_0_r. reflexivity.
Qed.

Lemma push_switch_spec ring objs n i idx :
  0 <= i → 0 <= idx →
  i + n mod 4 <= Z.of_nat (length objs) → i + n mod 4 < UINT32_MOD →
  idx + n mod 4 <= Z.of_nat (length ring) → idx + n mod 4 < UINT32_MOD →
  ∃ i' idx',
    push_switch objs n (ring, i, idx)
    = Done (copy_range objs ring (Z.to_nat i) (Z.to_nat idx) (Z.to_nat (n mod 4)), i', idx').
Proof.
  intros Hi Hidx Hobjs Hw1 Hring Hw2.
  unfold push_switch. rewrite land_3.
  pose proof (Z.mod_pos_bound n 4 ltac:(lia)) as Hm.
  assert (n mod 4 = 0 ∨ n mod 4 = 1 ∨ n mod 4 = 2 ∨ n mod 4 = 3)
    as [Hc | [Hc | [Hc | Hc]]] by lia;
    rewrite Hc in *; unfold push_step.
  - eauto.
  - copy_one. eauto.
  - copy_one. next_step. copy_one. eauto.
  - copy_one. next_step. copy_one. next_step. copy_one. eauto.
Qed.

End PushLoops.

Section PopLoops.

Implicit Types ring objs : list handle.

Lemma pop_to_end_spec fuel ring objs size i idx :
  0 <= i → 0 <= idx <= size → size - idx <= Z.of_nat fuel →
  size <= Z.of_nat (length ring) → size < UINT32_MOD →
  i + (size - idx) <= Z.of_nat (length objs) → i + (size - idx) < UINT32_MOD →
  pop_to_end fuel ring objs size i idx
  = Done (copy_range ring objs (Z.to_nat idx) (Z.to_nat i) (Z.to_nat (size - idx)),
          i + (size - idx)).
Proof.
  revert objs i idx.
  induction fuel as [|fuel IH]; intros objs i idx Hi Hidx Hfuel Hring Hsz Hobjs Hwrap;
    simpl; destruct (Z.ltb_spec idx size) as [Hlt|Hge]; try lia.
  - replace (size - idx) with 0 by lia. rewrite Z.add_0_r. reflexivity.
  - copy_one. no_wrap.
    rewrite IH by lia. eq_args.
  - replace (size - idx) with 0 by lia. rewrite Z.add_0_r. reflexivity.
Qed.

Lemma pop_from_start_spec fuel ring objs n i idx :
  0 <= i <= n → 0 <= idx → n - i <= Z.of_nat fuel →
  n <= Z.of_nat (length objs) → n < UINT32_MOD →
  idx + (n - i) <= Z.of_nat (length ring) → idx + (n - i) < UINT32_MOD →
  pop_from_start fuel ring objs n i idx
  = Done (copy_range ring objs (Z.to_nat idx) (Z.to_nat i) (Z.to_nat (n - i))).
Proof.
  revert objs i idx.
  induction fuel as [|fuel IH]; intros objs i idx Hi Hidx Hfuel Hobjs Hn Hring Hwrap;
    simpl; destruct (Z.ltb_spec i n) as [Hlt|Hge]; try lia.
  - replace (n - i) with 0 by lia. reflexivity.
  - copy_one. no_wrap.
    rewrite IH by lia. eq_args.
  - replace (n - i) with 0 by lia. reflexivity.
Qed.

Lemma pop_unrolled_spec fuel ring objs n i idx :
  is_u32 n → 0 <= i <= 4 * (n / 4) → i mod 4 = 0 → 0 <= idx →
  4 * (n / 4) - i <= 4 * Z.of_nat fuel →
  4 * (n / 4) <= Z.of_nat (length objs) →
  idx + (4 * (n / 4) - i) <= Z.of_nat (length ring) →
  idx + (4 * (n / 4) - i) < UINT32_MOD →
  pop_unrolled fuel ring objs n i idx
  = Done (copy_range ring objs (Z.to_nat idx) (Z.to_nat i) (Z.to_nat (4 * (n / 4) - i)),
          4 * (n / 4), idx + (4 * (n / 4) - i)).
Proof.
  intros Hn. revert objs i idx.
  induction fuel as [|fuel IH]; intros objs i idx Hi Hi4 Hidx Hfuel Hobjs Hring Hwrap;
    simpl; rewrite land_NOT3 by exact Hn;
    destruct (Z.ltb_spec i (4 * (n / 4))) as [Hlt|Hge]; try lia.
  - replace i with (4 * (n / 4)) by lia. rewrite Z.sub_diag, Z.add_0_r. reflexivity.
  - assert (i + 4 <= 4 * (n / 4)) by (apply Z.mod_divide in Hi4; [destruct Hi4; lia | lia]).
    assert (4 * (n / 4) <= n) by (apply Z.mul_div_le; lia).
    unfold is_u32 in Hn.
    copy_one. no_wrap.
    copy_one. no_wrap.
    copy_one. no_wrap.
    copy_one. no_wrap.
    rewrite IH.
    + eq_args.
    + lia.
    + replace (i + 4) with (i + 1 * 4) by lia. rewrite Z.mod_add by lia. exact Hi4.
    + lia.
    + lia.
    + lia.
    + lia.
    + lia.
  - replace i with (4 * (n / 4)) by lia. rewrite Z.sub_diag, Z.add_0_r. reflexivity.
Qed.

Lemma pop_switch_spec ring objs n i idx :
  0 <= i → 0 <= idx →
  i + n mod 4 <= Z.of_nat (length objs) → i + n mod 4 < UINT32_MOD →
  idx + n mod 4 <= Z.of_nat (length ring) → idx + n mod 4 < UINT32_MOD →
  ∃ i' idx',
    pop_switch ring n (objs, i, idx)
    = Done (copy_range ring objs (Z.to_nat idx) (Z.to_nat i) (Z.to_nat (n mod 4)), i', idx').
Proof.
  intros Hi Hidx Hobjs Hw1 Hring Hw2.
  unfold pop_switch. rewrite land_3.
  pose proof (Z.mod_pos_bound n 4 ltac:(lia)) as Hm.
  assert (n mod 4 = 0 ∨ n mod 4 = 1 ∨ n mod 4 = 2 ∨ n mod 4 = 3)
    as [Hc | [Hc | [Hc | Hc]]] by lia;
    rewrite Hc in *; unfold pop_step.
  - eauto.
  - copy_one. eauto.
  - copy_one. next_step. copy_one. eauto.
  - copy_one. next_step. copy_one. next_step. copy_one. eauto.
Qed.

End PopLoops.

(** ** The two macros *)

Section Macros.

Variable r : ring.
Variable objs : list handle.
Variables head mask n : Z.

Let size := Prod.size (prod r).

Hypothesis size_pow2 : is_pow2 size.
Hypothesis size_u32 : size < UINT32_MOD.
Hypothesis mask_size : mask = size - 1.
Hypothesis n_range : 0 <= n <= size - 1.
Hypothesis objs_room : n <= Z.of_nat (length objs).
Hypothesis slots_room : size <= Z.of_nat (length (slots r)).

Lemma PUSH_PTRS_spec :
  PUSH_PTRS r objs head mask n
  = Done (wrapped_write objs (slots r) (head mod size) size n).
Proof.
  pose proof (pow2_pos _ size_pow2) as Hpos.
  pose proof (Z.mod_pos_bound head size Hpos) as Hidx.
  pose proof (pow2_le_half _ size_pow2 size_u32) as Hhalf.
  unfold PUSH_PTRS, wrapped_write. fold size.
  rewrite mask_size, pow2_land by exact size_pow2.
  no_wrap.
  destruct (Z.ltb_spec (head mod size + n) size) as [Hlt|Hge].
  - assert (is_u32 n) as Hn by (unfold is_u32; lia).
    assert (4 * (n / 4) <= n) by (apply Z.mul_div_le; lia).
    pose proof (Z.div_mod n 4 ltac:(lia)) as Hdm.
    pose proof (Z.mod_pos_bound n 4 ltac:(lia)) as Hm.
    rewrite push_unrolled_spec by (try exact Hn; try reflexivity; lia).
    rewrite bind_Done.
    edestruct (push_switch_spec (copy_range objs (slots r) (Z.to_nat 0)
                 (Z.to_nat (head mod size)) (Z.to_nat (4 * (n / 4) - 0))) objs n
                 (4 * (n / 4)) (head mod size + (4 * (n / 4) - 0)))
      as (i' & idx' & ->); rewrite ?length_copy_range; try lia.
    rewrite bind_Done. cbv beta iota.
    replace (Z.to_nat n) with (Z.to_nat (4 * (n / 4) - 0) + Z.to_nat (n mod 4))%nat by lia.
    rewrite copy_range_app by lia.
    eq_args.
  - rewrite push_to_end_spec by lia.
    rewrite bind_Done. cbv beta iota.
    rewrite push_from_start_spec by (rewrite ?length_copy_range; lia).
    eq_args.
Qed.

Hypothesis cons_size : Cons.size (cons r) = size.

Lemma POP_PTRS_spec :
  POP_PTRS r objs head mask n
  = Done (wrapped_read (slots r) objs (head mod size) size n).
Proof.
  pose proof (pow2_pos _ size_pow2) as Hpos.
  pose proof (Z.mod_pos_bound head size Hpos) as Hidx.
  pose proof (pow2_le_half _ size_pow2 size_u32) as Hhalf.
  unfold POP_PTRS, wrapped_read. rewrite cons_size.
  rewrite mask_size, pow2_land by exact size_pow2.
  no_wrap.
  destruct (Z.ltb_spec (head mod size + n) size) as [Hlt|Hge].
  - assert (is_u32 n) as Hn by (unfold is_u32; lia).
    assert (4 * (n / 4) <= n) by (apply Z.mul_div_le; lia).
    pose proof (Z.div_mod n 4 ltac:(lia)) as Hdm.
    pose proof (Z.mod_pos_bound n 4 ltac:(lia)) as Hm.
    rewrite pop_unrolled_spec by (try exact Hn; try reflexivity; lia).
    rewrite bind_Done.
    edestruct (pop_switch_spec (slots r) (copy_range (slots r) objs
                 (Z.to_nat (head mod size)) (Z.to_nat 0) (Z.to_nat (4 * (n / 4) - 0))) n
                 (4 * (n / 4)) (head mod size + (4 * (n / 4) - 0)))
      as (i' & idx' & ->); rewrite ?length_copy_range; try lia.
    rewrite bind_Done. cbv beta iota.
    replace (Z.to_nat n) with (Z.to_nat (4 * (n / 4) - 0) + Z.to_nat (n mod 4))%nat by lia.
    rewrite copy_range_app by lia.
    eq_args.
  - rewrite pop_to_end_spec by lia.
    rewrite bind_Done. cbv beta iota.
    rewrite pop_from_start_spec by (rewrite ?length_copy_range; lia).
    eq_args.
Qed.

End Macros.

(** ** Where the handles go *)

Section Wrapped.

Variables ring objs : list handle.
Variables idx size n : Z.

Hypothesis idx_range : 0 <= idx < size.
Hypothesis n_range : 0 <= n <= size - 1.
Hypothesis objs_room : n <= Z.of_nat (length objs).
Hypothesis ring_room : size <= Z.of_nat (length ring).

Lemma wrapped_write_length :
  length (wrapped_write objs ring idx size n) = length ring.
Proof.
  unfold wrapped_write. destruct (idx + n <? size); rewrite !length_copy_range; reflexivity.
Qed.


(** The slot [i] handles after [idx], wrapping at [size]. *)
Lemma slot_index i :
  0 <= i < n →
  (idx + i) mod size = if idx + i <? size then idx + i else idx + i - size.
Proof.
  intros Hi. destruct (Z.ltb_spec (idx + i) size).
  - apply Z.mod_small. lia.
  - symmetry. apply (Z.mod_unique_pos _ _ 1); lia.
Qed.

Lemma wrapped_write_lookup_in i :
  0 <= i < n →
  wrapped_write objs ring idx size n !! Z.to_nat ((idx + i) mod size)
  = objs !! Z.to_nat i.
Proof.
  intros Hi. rewrite slot_index by exact Hi. unfold wrapped_write.
  destruct (Z.ltb_spec (idx + n) size); destruct (Z.ltb_spec (idx + i) size); try lia.
  - rewrite copy_range_lookup_in by lia. f_equal. lia.
  - rewrite copy_range_lookup_out by lia.
    rewrite copy_range_lookup_in by lia. f_equal. lia.
  - rewrite copy_range_lookup_in by (rewrite ?length_copy_range; lia). f_equal. lia.
Qed.

Lemma wrapped_write_lookup_out (j : nat) :
  (∀ i, 0 <= i < n → Z.of_nat j ≠ (idx + i) mod size) →
  wrapped_write objs ring idx size n !! j = ring !! j.
Proof.
  intros Hj. unfold wrapped_write.
  destruct (Z.ltb_spec (idx + n) size).
  - apply copy_range_lookup_out.
    destruct (decide (Z.to_nat idx <= j < Z.to_nat idx + Z.to_nat n)%nat) as [Hin|]; [|lia].
    exfalso. apply (Hj (Z.of_nat j - idx)); [lia|].
    rewrite slot_index by lia.
    destruct (Z.ltb_spec (idx + (Z.of_nat j - idx)) size); lia.
  - destruct (decide (j < Z.to_nat (n - (size - idx)))%nat) as [Hin|].
    { exfalso. apply (Hj (Z.of_nat j + (size - idx))); [lia|].
      rewrite slot_index by lia.
      destruct (Z.ltb_spec (idx + (Z.of_nat j + (size - idx))) size); lia. }
    rewrite copy_range_lookup_out by lia.
    apply copy_range_lookup_out.
    destruct (decide (Z.to_nat idx <= j < Z.to_nat idx + Z.to_nat (size - idx))%nat)
      as [Hin|]; [|lia].
    exfalso. apply (Hj (Z.of_nat j - idx)); [lia|].
    rewrite slot_index by lia.
    destruct (Z.ltb_spec (idx + (Z.of_nat j - idx)) size); lia.
Qed.

Lemma wrapped_read_lookup_in i :
  0 <= i < n →
  wrapped_read ring objs idx size n !! Z.to_nat i
  = ring !! Z.to_nat ((idx + i) mod size).
Proof.
  intros Hi. rewrite slot_index by exact Hi. unfold wrapped_read.
  destruct (Z.ltb_spec (idx + n) size); destruct (Z.ltb_spec (idx + i) size); try lia.
  - rewrite copy_range_lookup_in by lia. f_equal. lia.
  - rewrite copy_range_lookup_out by lia.
    rewrite copy_range_lookup_in by lia. f_equal. lia.
  - rewrite copy_range_lookup_in by (rewrite ?length_copy_range; lia). f_equal. lia.
Qed.

Lemma wrapped_read_lookup_out (j : nat) :
  n <= Z.of_nat j →
  wrapped_read ring objs idx size n !! j = objs !! j.
Proof.
  intros Hj. unfold wrapped_read.
  destruct (Z.ltb_spec (idx + n) size);
    rewrite !copy_range_lookup_out by lia; reflexivity.
Qed.

End Wrapped.

(** ** The state between two operations *)

Section Invariant.

Variable r : ring.
Hypothesis Hinv : ring_inv r.

Let size := Prod.size (prod r).
Let pt := Prod.tail (prod r).
Let ct := Cons.tail (cons r).

Lemma inv_size_pos : 0 < size.
Proof. apply pow2_pos. apply Hinv. Qed.

Lemma inv_held_range : 0 <= u32 (pt - ct) <= size - 1.
Proof.
  split; [apply u32_range | apply Hinv].
Qed.

Lemma ring_count_inv : ring_count r = u32 (pt - ct).
Proof.
  unfold ring_count. rewrite (inv_mask r Hinv).
  rewrite pow2_land by apply Hinv.
  apply Z.mod_small. pose proof inv_held_range. unfold size, pt, ct in *. lia.
Qed.

Lemma ring_avail_inv : ring_avail r = size - 1 - u32 (pt - ct).
Proof.
  pose proof inv_size_pos as Hpos.
  unfold ring_avail. rewrite (inv_mask r Hinv).
  rewrite pow2_land by apply Hinv.
  rewrite u32_mod by apply Hinv.
  replace (Cons.tail (cons r) - Prod.tail (prod r) - 1) with (- (pt - ct) - 1)
    by (unfold pt, ct; lia).
  rewrite mod_compl by exact Hpos. fold size.
  rewrite <- (u32_mod size (pt - ct)) by apply Hinv.
  rewrite Z.mod_small; [reflexivity|].
  pose proof inv_held_range. lia.
Qed.

(** The free room [ring_sp_push] computes. *)
Lemma push_avail_inv :
  u32 (Prod.mask (prod r) + Cons.tail (cons r) - Prod.head (prod r)) = ring_avail r.
Proof.
  rewrite ring_avail_inv.
  rewrite (inv_mask r Hinv), (inv_prod_quiet r Hinv). fold size pt ct.
  pose proof inv_held_range as Hh.
  pose proof (inv_size_u32 r Hinv) as Hs. fold size in Hs.
  unfold u32 in *. rewrite UINT32_MOD_eq in *.
  symmetry. apply (Z.mod_unique_pos _ _ (- ((pt - ct) / 4294967296))); [lia|].
  pose proof (Z.div_mod (pt - ct) 4294967296). lia.
Qed.

(** The number of entries [ring_sc_pop] computes. *)
Lemma pop_avail_inv :
  u32 (Prod.tail (prod r) - Cons.head (cons r)) = ring_count r.
Proof.
  rewrite ring_count_inv, (inv_cons_quiet r Hinv). reflexivity.
Qed.

Lemma count_avail_inv : ring_count r + ring_avail r = size - 1.
Proof. rewrite ring_count_inv, ring_avail_inv. lia. Qed.

Lemma ring_count_range : 0 <= ring_count r <= size - 1.
Proof. rewrite ring_count_inv. apply inv_held_range. Qed.

(** [prod.tail] is [ring_count] slots after [cons.tail]. *)
Lemma prod_tail_slot d : (pt + d) mod size = (ct + ring_count r + d) mod size.
Proof.
  pose proof inv_size_pos.
  rewrite ring_count_inv.
  rewrite <- (Z.add_mod_idemp_l (ct + _)) by lia.
  rewrite <- (Z.add_mod_idemp_r ct) by lia.
  rewrite u32_mod by apply Hinv.
  rewrite Z.add_mod_idemp_r by lia.
  rewrite Z.add_mod_idemp_l by lia.
  f_equal. lia.
Qed.

Lemma contents_lookup (i : nat) :
  contents r !! i
  = if decide (Z.of_nat i < ring_count r)
    then Some (slot_at r (ct + Z.of_nat i)) else None.
Proof.
  unfold contents. rewrite list_lookup_fmap.
  destruct (decide (Z.of_nat i < ring_count r)).
  - rewrite lookup_seqZ_lt by lia. reflexivity.
  - rewrite lookup_seqZ_ge by lia. reflexivity.
Qed.

Lemma length_contents : Z.of_nat (length (contents r)) = ring_count r.
Proof.
  unfold contents. rewrite length_fmap, length_seqZ.
  pose proof ring_count_range. lia.
Qed.

End Invariant.

(** ** Push and pop from a quiet state *)

Lemma u32_advance_prod a c k :
  0 <= u32 (a - c) + k < UINT32_MOD →
  u32 (u32 (a + k) - c) = u32 (a - c) + k.
Proof.
  intros Hk. unfold u32 in *.
  rewrite Zminus_mod_idemp_l.
  replace (a + k - c) with (a - c + k) by lia.
  rewrite <- Z.add_mod_idemp_l by (rewrite UINT32_MOD_eq; lia).
  apply Z.mod_small. exact Hk.
Qed.

Lemma u32_advance_cons a c k :
  0 <= u32 (a - c) - k < UINT32_MOD →
  u32 (a - u32 (c + k)) = u32 (a - c) - k.
Proof.
  intros Hk. unfold u32 in *.
  rewrite Zminus_mod_idemp_r.
  replace (a - (c + k)) with (a - c - k) by lia.
  rewrite <- Zminus_mod_idemp_l.
  apply Z.mod_small. exact Hk.
Qed.

Lemma wrapped_write_0 objs ring idx size :
  0 <= idx < size → wrapped_write objs ring idx size 0 = ring.
Proof.
  intros H. unfold wrapped_write.
  destruct (Z.ltb_spec (idx + 0) size); [reflexivity|lia].
Qed.

Lemma wrapped_read_0 ring objs idx size :
  0 <= idx < size → wrapped_read ring objs idx size 0 = objs.
Proof.
  intros H. unfold wrapped_read.
  destruct (Z.ltb_spec (idx + 0) size); [reflexivity|lia].
Qed.

Section Quiet.

Variable r : ring.
Hypothesis Hinv : ring_inv r.

Lemma pushed_ring_0 objs : pushed_ring r objs 0 = r.
Proof.
  pose proof (inv_size_pos r Hinv) as Hpos.
  unfold pushed_ring.
  rewrite wrapped_write_0 by (apply Z.mod_pos_bound; exact Hpos).
  rewrite Z.add_0_r, (inv_prod_quiet r Hinv).
  rewrite u32_small by apply Hinv.
  destruct Hinv as [_ _ _ _ _ Hq _ _ _ _ _].
  destruct r as [[sp size mask head tail] c s]. simpl in *. subst head. reflexivity.
Qed.

Lemma popped_ring_0 : popped_ring r 0 = r.
Proof.
  unfold popped_ring.
  rewrite Z.add_0_r, (inv_cons_quiet r Hinv).
  rewrite u32_small by apply Hinv.
  destruct Hinv as [_ _ _ _ _ _ Hq _ _ _ _].
  destruct r as [p [sc size mask head tail] s]. simpl in *. subst head. reflexivity.
Qed.

Lemma popped_objs_0 objs : popped_objs r objs 0 = objs.
Proof.
  unfold popped_objs. apply wrapped_read_0.
  apply Z.mod_pos_bound. apply (inv_size_pos r Hinv).
Qed.

Lemma pushed_ring_inv objs k :
  0 <= k <= ring_avail r → ring_inv (pushed_ring r objs k).
Proof.
  intros Hk. rewrite (ring_avail_inv r Hinv) in Hk.
  pose proof (inv_held_range r Hinv) as Hh.
  pose proof (inv_size_u32 r Hinv) as Hs.
  destruct Hinv as [H1 H2 H3 H4 H5 H6 H7 H8 H9 H10 H11].
  constructor; simpl; try assumption; try reflexivity; try apply u32_range.
  - rewrite H6, u32_advance_prod by lia. lia.
  - rewrite wrapped_write_length. exact H11.
Qed.

Lemma popped_ring_inv k :
  0 <= k <= ring_count r → ring_inv (popped_ring r k).
Proof.
  intros Hk. rewrite (ring_count_inv r Hinv) in Hk.
  pose proof (inv_held_range r Hinv) as Hh.
  pose proof (inv_size_u32 r Hinv) as Hs.
  destruct Hinv as [H1 H2 H3 H4 H5 H6 H7 H8 H9 H10 H11].
  constructor; simpl; try assumption; try reflexivity; try apply u32_range.
  rewrite H7, u32_advance_cons by lia. lia.
Qed.

Lemma pushed_ring_count objs k :
  0 <= k <= ring_avail r → ring_count (pushed_ring r objs k) = ring_count r + k.
Proof.
  intros Hk.
  rewrite (ring_count_inv _ (pushed_ring_inv objs k Hk)), (ring_count_inv r Hinv).
  rewrite (ring_avail_inv r Hinv) in Hk.
  pose proof (inv_held_range r Hinv) as Hh.
  pose proof (inv_size_u32 r Hinv) as Hs.
  simpl. rewrite (inv_prod_quiet r Hinv). apply u32_advance_prod. lia.
Qed.

Lemma popped_ring_count k :
  0 <= k <= ring_count r → ring_count (popped_ring r k) = ring_count r - k.
Proof.
  intros Hk.
  rewrite (ring_count_inv _ (popped_ring_inv k Hk)), (ring_count_inv r Hinv).
  rewrite (ring_count_inv r Hinv) in Hk.
  pose proof (inv_held_range r Hinv) as Hh.
  pose proof (inv_size_u32 r Hinv) as Hs.
  simpl. rewrite (inv_cons_quiet r Hinv). apply u32_advance_cons. lia.
Qed.

Lemma sp_push_commit_spec objs k :
  0 <= k <= ring_avail r → k <= Z.of_nat (length objs) →
  sp_push_commit r objs (Prod.head (prod r)) (Prod.mask (prod r)) k
  = Done (pushed_ring r objs k, k).
Proof.
  intros Hk Hobjs. unfold sp_push_commit.
  pose proof (count_avail_inv r Hinv). pose proof (ring_count_range r Hinv).
  rewrite PUSH_PTRS_spec; simpl; try apply Hinv; try lia.
  reflexivity.
Qed.

Lemma sc_pop_commit_spec objs k :
  0 <= k <= ring_count r → k <= Z.of_nat (length objs) →
  sc_pop_commit r objs (Cons.head (cons r)) (Prod.mask (prod r)) k
  = Done (popped_ring r k, popped_objs r objs k, k).
Proof.
  intros Hk Hobjs. unfold sc_pop_commit.
  pose proof (ring_count_range r Hinv).
  rewrite POP_PTRS_spec; simpl; try apply Hinv; try lia.
  reflexivity.
Qed.

Lemma grant_range n avail behavior :
  0 <= n → 0 <= avail → 0 <= grant n avail behavior <= avail ∧ grant n avail behavior <= n.
Proof.
  intros Hn Ha. unfold grant.
  destruct (Z.ltb_spec avail n); destruct (behavior =? RING_B_FIXED); lia.
Qed.

Lemma ring_sp_push_spec objs n behavior :
  is_u32 n → n <= Z.of_nat (length objs) →
  ring_sp_push r objs n behavior
  = Done (pushed_ring r objs (grant n (ring_avail r) behavior),
          grant n (ring_avail r) behavior).
Proof.
  intros Hn Hobjs. unfold ring_sp_push, grant.
  pose proof (count_avail_inv r Hinv). pose proof (ring_count_range r Hinv).
  rewrite (push_avail_inv r Hinv).
  destruct (Z.ltb_spec (ring_avail r) n).
  - destruct (behavior =? RING_B_FIXED).
    + rewrite pushed_ring_0. reflexivity.
    + destruct (Z.eqb_spec (ring_avail r) 0) as [->|Hne].
      * rewrite pushed_ring_0. reflexivity.
      * apply sp_push_commit_spec; lia.
  - apply sp_push_commit_spec; unfold is_u32 in Hn; lia.
Qed.

Lemma ring_sc_pop_spec objs n behavior :
  is_u32 n → n <= Z.of_nat (length objs) →
  ring_sc_pop r objs n behavior
  = Done (popped_ring r (grant n (ring_count r) behavior),
          popped_objs r objs (grant n (ring_count r) behavior),
          grant n (ring_count r) behavior).
Proof.
  intros Hn Hobjs. unfold ring_sc_pop, grant.
  pose proof (ring_count_range r Hinv).
  rewrite (pop_avail_inv r Hinv).
  destruct (Z.ltb_spec (ring_count r) n).
  - destruct (behavior =? RING_B_FIXED).
    + rewrite popped_ring_0, popped_objs_0. reflexivity.
    + destruct (Z.eqb_spec (ring_count r) 0) as [->|Hne].
      * rewrite popped_ring_0, popped_objs_0. reflexivity.
      * apply sc_pop_commit_spec; lia.
  - apply sc_pop_commit_spec; unfold is_u32 in Hn; lia.
Qed.

End Quiet.

(** ** The multi paths run alone *)

Lemma spin_until_quiet fuel tail : spin_until fuel tail tail = Done tt.
Proof. destruct fuel; simpl; rewrite Z.eqb_refl; reflexivity. Qed.

Lemma mp_push_commit_seq fuel r objs k :
  Prod.head (prod r) = Prod.tail (prod r) →
  (ring ← PUSH_PTRS (set_prod_head r (u32 (Prod.head (prod r) + k))) objs
            (Prod.head (prod r)) (Prod.mask (prod r)) k;
   let r' := set_slots (set_prod_head r (u32 (Prod.head (prod r) + k))) ring in
   _ ← spin_until fuel (Prod.tail (prod r')) (Prod.head (prod r));
   Done (set_prod_tail r' (u32 (Prod.head (prod r) + k)), k))
  = sp_push_commit r objs (Prod.head (prod r)) (Prod.mask (prod r)) k.
Proof.
  intros Hq. unfold sp_push_commit.
  destruct (PUSH_PTRS _ objs _ _ k) as [ring| |]; try reflexivity.
  rewrite !bind_Done. simpl. rewrite <- Hq, spin_until_quiet. reflexivity.
Qed.

(** With no other thread and no reservation pending, the multi-producer
    path does what the single-producer path does. *)
Lemma ring_mp_push_seq fuel r objs n behavior :
  Prod.head (prod r) = Prod.tail (prod r) →
  ring_mp_push (S fuel) r objs n behavior = ring_sp_push r objs n behavior.
Proof.
  intros Hq. unfold ring_mp_push, ring_sp_push. simpl mp_push_reserve.
  unfold CAS. rewrite Z.eqb_refl.
  destruct (_ <? n).
  - destruct (behavior =? RING_B_FIXED); [reflexivity|].
    destruct (_ =? 0); [reflexivity|].
    rewrite bind_Done. apply (mp_push_commit_seq (S fuel)). exact Hq.
  - rewrite bind_Done. apply (mp_push_commit_seq (S fuel)). exact Hq.
Qed.

Lemma mc_pop_commit_seq fuel r objs k :
  Cons.head (cons r) = Cons.tail (cons r) →
  (objs' ← POP_PTRS (set_cons_head r (u32 (Cons.head (cons r) + k))) objs
            (Cons.head (cons r)) (Prod.mask (prod r)) k;
   let r' := set_cons_head r (u32 (Cons.head (cons r) + k)) in
   _ ← spin_until fuel (Cons.tail (cons r')) (Cons.head (cons r));
   Done (set_cons_tail r' (u32 (Cons.head (cons r) + k)), objs', k))
  = sc_pop_commit r objs (Cons.head (cons r)) (Prod.mask (prod r)) k.
Proof.
  intros Hq. unfold sc_pop_commit.
  destruct (POP_PTRS _ objs _ _ k) as [objs'| |]; try reflexivity.
  rewrite !bind_Done. simpl. rewrite <- Hq, spin_until_quiet. reflexivity.
Qed.

Lemma ring_mc_pop_seq fuel r objs n behavior :
  Cons.head (cons r) = Cons.tail (cons r) →
  ring_mc_pop (S fuel) r objs n behavior = ring_sc_pop r objs n behavior.
Proof.
  intros Hq. unfold ring_mc_pop, ring_sc_pop. simpl mc_pop_reserve.
  unfold CAS. rewrite Z.eqb_refl.
  destruct (_ <? n).
  - destruct (behavior =? RING_B_FIXED); [reflexivity|].
    destruct (_ =? 0); [reflexivity|].
    rewrite bind_Done. apply (mc_pop_commit_seq (S fuel)). exact Hq.
  - rewrite bind_Done. apply (mc_pop_commit_seq (S fuel)). exact Hq.
Qed.

(** Without fuel the multi paths do not get through their first loop. *)
Lemma ring_mp_push_no_fuel r objs n behavior :
  ring_mp_push 0 r objs n behavior = Spin.
Proof. reflexivity. Qed.

Lemma ring_mc_pop_no_fuel r objs n behavior :
  ring_mc_pop 0 r objs n behavior = Spin.
Proof. reflexivity. Qed.

(** Whatever the flags, a call that returns has done what the single path
    does. *)
Lemma ring_push_done fuel r objs n behavior res :
  Prod.head (prod r) = Prod.tail (prod r) →
  ring_push fuel r objs n behavior = Done res →
  ring_sp_push r objs n behavior = Done res.
Proof.
  intros Hq. unfold ring_push.
  destruct (negb (Prod.sp (prod r) =? 0)); [tauto|].
  destruct fuel as [|fuel]; [discriminate|].
  rewrite ring_mp_push_seq by exact Hq. tauto.
Qed.

Lemma ring_pop_done fuel r objs n behavior res :
  Cons.head (cons r) = Cons.tail (cons r) →
  ring_pop fuel r objs n behavior = Done res →
  ring_sc_pop r objs n behavior = Done res.
Proof.
  intros Hq. unfold ring_pop.
  destruct (negb (Cons.sc (cons r) =? 0)); [tauto|].
  destruct fuel as [|fuel]; [discriminate|].
  rewrite ring_mc_pop_seq by exact Hq. tauto.
Qed.

Lemma ring_push_fuel fuel r objs n behavior :
  Prod.head (prod r) = Prod.tail (prod r) →
  ring_push (S fuel) r objs n behavior = ring_sp_push r objs n behavior.
Proof.
  intros Hq. unfold ring_push.
  destruct (negb (Prod.sp (prod r) =? 0)); [reflexivity|].
  apply ring_mp_push_seq. exact Hq.
Qed.

Lemma ring_pop_fuel fuel r objs n behavior :
  Cons.head (cons r) = Cons.tail (cons r) →
  ring_pop (S fuel) r objs n behavior = ring_sc_pop r objs n behavior.
Proof.
  intros Hq. unfold ring_pop.
  destruct (negb (Cons.sc (cons r) =? 0)); [reflexivity|].
  apply ring_mc_pop_seq. exact Hq.
Qed.

(** ** The handles held *)

Section Contents.

Variable r : ring.
Hypothesis Hinv : ring_inv r.

Let size := Prod.size (prod r).

Lemma slot_at_mod c :
  slot_at r c = default 0 (slots r !! Z.to_nat (c mod size)).
Proof.
  unfold slot_at. rewrite (inv_mask r Hinv), pow2_land by apply Hinv. reflexivity.
Qed.

Lemma slot_at_Some c : slots r !! Z.to_nat (c mod size) = Some (slot_at r c).
Proof.
  rewrite slot_at_mod.
  pose proof (Z.mod_pos_bound c size (inv_size_pos r Hinv)) as Hc.
  pose proof (inv_slots r Hinv) as Hs. fold size in Hs.
  destruct (slots r !! Z.to_nat (c mod size)) as [v|] eqn:Hv; [reflexivity|].
  apply lookup_ge_None in Hv. lia.
Qed.

Lemma slot_at_u32 c d : slot_at r (u32 c + d) = slot_at r (c + d).
Proof.
  pose proof (inv_size_pos r Hinv).
  rewrite !slot_at_mod. do 3 f_equal.
  rewrite <- Z.add_mod_idemp_l by (fold size; lia).
  rewrite u32_mod by apply Hinv.
  apply Z.add_mod_idemp_l. fold size. lia.
Qed.

(** The slots written by a push are the [k] slots after [prod.tail]. *)
Lemma pushed_slot (k i : Z) :
  (Prod.head (prod r) mod size + i) mod size
  = (Cons.tail (cons r) + ring_count r + i) mod size.
Proof.
  pose proof (inv_size_pos r Hinv).
  rewrite Z.add_mod_idemp_l by (fold size; lia).
  rewrite (inv_prod_quiet r Hinv).
  apply (prod_tail_slot r Hinv).
Qed.

Lemma pushed_ring_contents objs k :
  0 <= k <= ring_avail r → k <= Z.of_nat (length objs) →
  contents (pushed_ring r objs k) = contents r ++ take (Z.to_nat k) objs.
Proof.
  intros Hk Hobjs.
  pose proof (pushed_ring_inv r Hinv objs k Hk) as Hinv'.
  pose proof (inv_size_pos r Hinv) as Hpos. fold size in Hpos.
  pose proof (count_avail_inv r Hinv) as Hca. fold size in Hca.
  pose proof (ring_count_range r Hinv) as Hc. fold size in Hc.
  pose proof (length_contents r Hinv) as Hlen.
  pose proof (inv_slots r Hinv) as Hslots. fold size in Hslots.
  pose proof (Z.mod_pos_bound (Prod.head (prod r)) size Hpos) as Hidx.
  apply list_eq. intros i.
  rewrite (contents_lookup _), (pushed_ring_count r Hinv objs k Hk).
  unfold slot_at. simpl.
  rewrite (inv_mask r Hinv), pow2_land by apply Hinv. fold size.
  destruct (decide (Z.of_nat i < ring_count r)) as [Hlo|Hhi].
  - rewrite lookup_app_l by lia.
    rewrite (contents_lookup r), decide_True by lia.
    rewrite decide_True by lia.
    rewrite wrapped_write_lookup_out; try lia.
    + rewrite slot_at_mod. reflexivity.
    + intros i' Hi'. rewrite Z2Nat.id by (apply Z.mod_pos_bound; lia).
      rewrite (pushed_slot k).
      replace (Cons.tail (cons r) + ring_count r + i')
        with (Cons.tail (cons r) + Z.of_nat i + (ring_count r + i' - Z.of_nat i)) by lia.
      intros Heq. symmetry in Heq. revert Heq. apply mod_apart; lia.
  - rewrite lookup_app_r by lia.
    rewrite lookup_take.
    destruct (decide (Z.of_nat i < ring_count r + k)) as [Hin|Hout].
    + rewrite decide_True by lia.
      replace ((Cons.tail (cons r) + Z.of_nat i) mod size)
        with ((Prod.head (prod r) mod size + (Z.of_nat i - ring_count r)) mod size)
        by (rewrite (pushed_slot k); f_equal; lia).
      rewrite wrapped_write_lookup_in by lia.
      replace (Z.to_nat (Z.of_nat i - ring_count r)) with (i - length (contents r))%nat by lia.
      destruct (lookup_lt_is_Some_2 objs (i - length (contents r))) as [v ->]; [lia|].
      reflexivity.
    + rewrite decide_False by lia. reflexivity.
Qed.

Lemma popped_ring_contents k :
  0 <= k <= ring_count r →
  contents (popped_ring r k) = drop (Z.to_nat k) (contents r).
Proof.
  intros Hk.
  pose proof (popped_ring_inv r Hinv k Hk) as Hinv'.
  apply list_eq. intros i.
  rewrite lookup_drop.
  rewrite (contents_lookup _), (contents_lookup r).
  rewrite (popped_ring_count r Hinv k Hk).
  destruct (decide (Z.of_nat i < ring_count r - k)).
  - rewrite decide_True by lia. f_equal.
    change (slot_at r (u32 (Cons.head (cons r) + k) + Z.of_nat i)
            = slot_at r (Cons.tail (cons r) + Z.of_nat (Z.to_nat k + i))).
    rewrite slot_at_u32, (inv_cons_quiet r Hinv). f_equal. lia.
  - rewrite decide_False by lia. reflexivity.
Qed.

Lemma popped_objs_contents objs k :
  0 <= k <= ring_count r → k <= Z.of_nat (length objs) →
  popped_objs r objs k
  = take (Z.to_nat k) (contents r) ++ drop (Z.to_nat k) objs.
Proof.
  intros Hk Hobjs.
  pose proof (inv_size_pos r Hinv) as Hpos. fold size in Hpos.
  pose proof (ring_count_range r Hinv) as Hc. fold size in Hc.
  pose proof (length_contents r Hinv) as Hlen.
  pose proof (inv_slots r Hinv) as Hslots. fold size in Hslots.
  pose proof (Z.mod_pos_bound (Cons.head (cons r)) size Hpos) as Hidx.
  assert (length (take (Z.to_nat k) (contents r)) = Z.to_nat k) as Htake
    by (rewrite length_take; lia).
  apply list_eq. intros i. unfold popped_objs. fold size.
  destruct (decide (Z.of_nat i < k)) as [Hlo|Hhi].
  - rewrite lookup_app_l by lia.
    rewrite lookup_take, decide_True by lia.
    rewrite (contents_lookup r), decide_True by lia.
    replace i with (Z.to_nat (Z.of_nat i)) at 1 by lia.
    rewrite wrapped_read_lookup_in by lia.
    rewrite Z.add_mod_idemp_l by lia.
    rewrite (inv_cons_quiet r Hinv).
    apply slot_at_Some.
  - rewrite lookup_app_r by lia.
    rewrite wrapped_read_lookup_out by lia.
    rewrite lookup_drop. f_equal. lia.
Qed.

End Contents.

(** ** Sequences of operations *)

Lemma ring_init_inv r0 count flags :
  init_ok r0 count → ring_inv (ring_init r0 count flags).
Proof.
  intros (Hp & Hu & Hs).
  pose proof (pow2_pos _ Hp) as Hpos.
  constructor; simpl; try assumption; try reflexivity.
  - apply u32_small. unfold is_u32. lia.
  - unfold is_u32. rewrite UINT32_MOD_eq. lia.
  - unfold is_u32. rewrite UINT32_MOD_eq. lia.
  - change (u32 (0 - 0)) with 0. lia.
Qed.

Lemma ring_init_fifo r0 count flags :
  init_ok r0 count → fifo_inv (ring_init r0 count flags) [] [].
Proof.
  intros Hok. split; [apply ring_init_inv; exact Hok | reflexivity].
Qed.

Lemma op_ok_args (objs : list handle) n :
  (0 <=? n) && (n <? UINT32_MOD) && (n <=? Z.of_nat (length objs)) = true →
  is_u32 n ∧ n <= Z.of_nat (length objs).
Proof. unfold is_u32. lia. Qed.

Lemma push_moves_spec r objs k :
  ring_inv r → 0 <= k <= ring_avail r → k <= Z.of_nat (length objs) →
  push_moves r objs k (pushed_ring r objs k).
Proof.
  intros Hinv Hk Hobjs. split; [|split].
  - apply pushed_ring_contents; assumption.
  - apply pushed_ring_count; assumption.
  - reflexivity.
Qed.

Lemma pop_moves_spec r objs k :
  ring_inv r → 0 <= k <= ring_count r → k <= Z.of_nat (length objs) →
  pop_moves r objs k (popped_ring r k) (popped_objs r objs k).
Proof.
  intros Hinv Hk Hobjs. split; [|split; [|split; [|split]]].
  - apply popped_objs_contents; assumption.
  - apply popped_ring_contents; assumption.
  - apply popped_ring_count; assumption.
  - reflexivity.
  - reflexivity.
Qed.

Lemma push_fifo r objs k pushed popped :
  fifo_inv r pushed popped → 0 <= k <= ring_avail r → k <= Z.of_nat (length objs) →
  fifo_inv (pushed_ring r objs k) (pushed ++ take (Z.to_nat k) objs) popped.
Proof.
  intros [Hinv ->] Hk Hobjs. split.
  - apply pushed_ring_inv; assumption.
  - rewrite pushed_ring_contents by assumption. rewrite app_assoc. reflexivity.
Qed.

Lemma pop_fifo r objs k pushed popped :
  fifo_inv r pushed popped → 0 <= k <= ring_count r → k <= Z.of_nat (length objs) →
  fifo_inv (popped_ring r k) pushed
    (popped ++ take (Z.to_nat k) (popped_objs r objs k)).
Proof.
  intros [Hinv ->] Hk Hobjs. split.
  - apply popped_ring_inv; assumption.
  - rewrite popped_ring_contents, popped_objs_contents by assumption.
    pose proof (length_contents r Hinv).
    rewrite take_app_le by (rewrite length_take; lia).
    rewrite take_take, Nat.min_id.
    rewrite <- app_assoc, take_drop. reflexivity.
Qed.

Lemma can_run_push fuel r objs n behavior :
  can_run fuel r → Prod.head (prod r) = Prod.tail (prod r) →
  ring_push fuel r objs n behavior = ring_sp_push r objs n behavior.
Proof.
  intros [Hf | [Hsp _]] Hq.
  - destruct fuel as [|fuel]; [congruence|]. apply ring_push_fuel. exact Hq.
  - unfold ring_push. destruct (Z.eqb_spec (Prod.sp (prod r)) 0); [contradiction|reflexivity].
Qed.

Lemma can_run_pop fuel r objs n behavior :
  can_run fuel r → Cons.head (cons r) = Cons.tail (cons r) →
  ring_pop fuel r objs n behavior = ring_sc_pop r objs n behavior.
Proof.
  intros [Hf | [_ Hsc]] Hq.
  - destruct fuel as [|fuel]; [congruence|]. apply ring_pop_fuel. exact Hq.
  - unfold ring_pop. destruct (Z.eqb_spec (Cons.sc (cons r)) 0); [contradiction|reflexivity].
Qed.

(** A sequence of calls that returns keeps the FIFO relation. *)
Lemma run_done fuel ops :
  ∀ r pushed popped r' pushed' popped',
    fifo_inv r pushed popped → forallb op_ok ops = true →
    run fuel ops r pushed popped = Done (r', pushed', popped') →
    fifo_inv r' pushed' popped'.
Proof.
  induction ops as [|[objs n behavior | objs n behavior] ops IH];
    intros r pushed popped r' pushed' popped' Hfifo Hok Hrun; simpl in *.
  - congruence.
  - apply andb_prop in Hok as [Hargs Hok]. apply op_ok_args in Hargs as [Hn Hobjs].
    pose proof Hfifo as [Hinv _].
    pose proof (grant_range n (ring_avail r) behavior) as Hg.
    pose proof (count_avail_inv r Hinv). pose proof (ring_count_range r Hinv).
    destruct (ring_push fuel r objs n behavior) as [[r1 k]| |] eqn:Hpush; try discriminate.
    apply ring_push_done in Hpush; [|apply Hinv].
    rewrite ring_sp_push_spec in Hpush by assumption.
    injection Hpush as <- <-.
    unfold is_u32 in Hn.
    eapply IH; [| exact Hok | exact Hrun].
    apply push_fifo; [exact Hfifo | lia | lia].
  - apply andb_prop in Hok as [Hargs Hok]. apply op_ok_args in Hargs as [Hn Hobjs].
    pose proof Hfifo as [Hinv _].
    pose proof (grant_range n (ring_count r) behavior) as Hg.
    pose proof (ring_count_range r Hinv).
    destruct (ring_pop fuel r objs n behavior) as [[[r1 objs1] k]| |] eqn:Hpop; try discriminate.
    apply ring_pop_done in Hpop; [|apply Hinv].
    rewrite ring_sc_pop_spec in Hpop by assumption.
    injection Hpop as <- <- <-.
    unfold is_u32 in Hn.
    eapply IH; [| exact Hok | exact Hrun].
    apply pop_fifo; [exact Hfifo | lia | lia].
Qed.

Lemma reachable_inv r : reachable r → ring_inv r.
Proof.
  intros (r0 & count & flags & fuel & ops & pushed & popped & Hinit & Hok & Hrun).
  apply (run_done fuel ops _ _ _ _ _ _ (ring_init_fifo r0 count flags Hinit) Hok Hrun).
Qed.

Lemma spsc_reachable_fifo r pushed popped :
  spsc_reachable r pushed popped → fifo_inv r pushed popped.
Proof.
  intros (r0 & count & fuel & ops & Hinit & Hok & Hrun).
  apply (run_done fuel ops _ _ _ _ _ _ (ring_init_fifo r0 count _ Hinit) Hok Hrun).
Qed.

(** * The properties of the specification *)

(** ** Sizing *)

Lemma zero_not_pow2 : ¬ is_pow2 0.
Proof. intros Hp. apply pow2_pos in Hp. lia. Qed.

(** For a count other than 0 the sizing call does what its documentation
    says: the size in bytes for a power of two within [RING_SIZE_MASK], and 0
    otherwise. *)
Lemma ring_memsize_valid count :
  is_pow2 count → count <= RING_SIZE_MASK →
  ring_memsize count = sizeof_ring + count * sizeof_ptr.
Proof.
  intros Hp Hle. pose proof (pow2_pos _ Hp) as Hpos.
  unfold ring_memsize, RING_SIZE_MASK in *.
  assert (POWEROF2 count = true) as ->
    by (apply POWEROF2_pow2; [rewrite UINT32_MOD_eq; lia | exact Hp]).
  destruct (Z.ltb_spec 268435455 count); [lia|]. simpl.
  apply u32_small. unfold is_u32, sizeof_ring, sizeof_ptr, CACHE_LINE_SIZE.
  rewrite UINT32_MOD_eq. lia.
Qed.

Lemma ring_memsize_invalid count :
  0 < count < UINT32_MOD →
  ¬ is_pow2 count ∨ RING_SIZE_MASK < count →
  ring_memsize count = 0.
Proof.
  intros Hc Hbad. unfold ring_memsize.
  destruct (POWEROF2 count) eqn:Hp; [|reflexivity].
  destruct (Z.ltb_spec RING_SIZE_MASK count); [reflexivity|].
  apply POWEROF2_pow2 in Hp; [|exact Hc]. destruct Hbad; [contradiction|lia].
Qed.

(** C1: [ring_memsize] is documented to return 0 when [count] is not a power
    of two, but for [count = 0], which is not a power of two, the test
    [POWEROF2] succeeds and the call returns [sizeof(struct ring)], not 0. *)
Theorem ring_memsize_zero_count :
  ¬ is_pow2 0 ∧ POWEROF2 0 = true ∧
  ring_memsize 0 = sizeof_ring ∧ ring_memsize 0 ≠ 0.
Proof.
  split; [exact zero_not_pow2|].
  split; [reflexivity|].
  split; [reflexivity|].
  vm_compute. discriminate.
Qed.

(** ** Accessors *)

(** C5: whatever the two tails, for a power-of-two [size] with
    [mask = size - 1], [ring_count] and [ring_avail] add up to [size - 1],
    and [ring_count] lies between 0 and [size - 1]. *)
Theorem count_avail_sum (r : ring) :
  is_u32 (Prod.tail (prod r)) → is_u32 (Cons.tail (cons r)) →
  is_pow2 (Prod.size (prod r)) → Prod.size (prod r) < UINT32_MOD →
  Prod.mask (prod r) = Prod.size (prod r) - 1 →
  ring_count r + ring_avail r = Prod.size (prod r) - 1 ∧
  0 <= ring_count r <= Prod.size (prod r) - 1.
Proof.
  intros _ _ Hp Hu Hm.
  pose proof (pow2_pos _ Hp) as Hpos.
  unfold ring_count, ring_avail. rewrite Hm, !pow2_land by exact Hp.
  rewrite !u32_mod by assumption.
  replace (Cons.tail (cons r) - Prod.tail (prod r) - 1)
    with (- (Prod.tail (prod r) - Cons.tail (cons r)) - 1) by lia.
  rewrite mod_compl by exact Hpos.
  pose proof (Z.mod_pos_bound (Prod.tail (prod r) - Cons.tail (cons r)) _ Hpos).
  lia.
Qed.

Lemma count_avail_sum_witness :
  ring_count wrapped_tails + ring_avail wrapped_tails = 8 - 1 ∧
  0 <= ring_count wrapped_tails <= 8 - 1.
Proof.
  apply (count_avail_sum wrapped_tails).
  - vm_compute. split; [discriminate | reflexivity].
  - vm_compute. split; [discriminate | reflexivity].
  - exists 3. split; [lia | reflexivity].
  - reflexivity.
  - reflexivity.
Defined.

(** C6: in a state reached from an initialised ring, [ring_empty] answers 1
    exactly when [ring_count] is 0 and [ring_full] answers 1 exactly when
    [ring_avail] is 0; the two answer 1 together only for [size = 1], where
    both always do and the ring holds nothing. *)
Theorem empty_full_reachable (r : ring) :
  reachable r →
  (ring_empty r = 1 ↔ ring_count r = 0) ∧
  (ring_full r = 1 ↔ ring_avail r = 0) ∧
  (Prod.size (prod r) ≠ 1 → ¬ (ring_empty r = 1 ∧ ring_full r = 1)) ∧
  (Prod.size (prod r) = 1 →
   ring_empty r = 1 ∧ ring_full r = 1 ∧ ring_count r = 0 ∧ contents r = []).
Proof.
  intros Hreach. apply reachable_inv in Hreach as Hinv.
  pose proof (count_avail_inv r Hinv) as Hsum.
  pose proof (ring_count_range r Hinv) as Hc.
  pose proof (inv_size_pos r Hinv) as Hpos.
  assert (ring_empty r = 1 ↔ ring_count r = 0) as Hempty.
  { rewrite (ring_count_inv r Hinv). unfold ring_empty, bang_bang.
    pose proof (inv_prod_tail r Hinv) as Hpt. pose proof (inv_cons_tail r Hinv) as Hct.
    destruct (Z.eqb_spec (Cons.tail (cons r)) (Prod.tail (prod r))) as [Heq|Hne]; simpl.
    - rewrite Heq, Z.sub_diag. split; reflexivity.
    - split; [discriminate|]. intros H0. exfalso. apply Hne.
      unfold is_u32, u32 in *. rewrite UINT32_MOD_eq in *.
      apply Z.mod_divide in H0; [|lia]. destruct H0 as [q Hq]. lia. }
  assert (ring_full r = 1 ↔ ring_avail r = 0) as Hfull.
  { unfold ring_full, ring_avail.
    destruct (Z.eqb_spec (Z.land (u32 (Cons.tail (cons r) - Prod.tail (prod r) - 1))
                            (Prod.mask (prod r))) 0); split; congruence. }
  split; [exact Hempty|]. split; [exact Hfull|]. split.
  - intros Hsize [He Hf]. apply Hempty in He. apply Hfull in Hf. lia.
  - intros Hsize.
    assert (ring_count r = 0) as H0 by lia.
    split; [apply Hempty; exact H0|].
    split; [apply Hfull; lia|].
    split; [exact H0|].
    unfold contents. rewrite H0. reflexivity.
Qed.

(** ** Quiet states *)

Lemma sp_push_commit_quiet r objs prod_head mask n r' k :
  Cons.head (cons r) = Cons.tail (cons r) →
  sp_push_commit r objs prod_head mask n = Done (r', k) → quiet r'.
Proof.
  intros Hc. unfold sp_push_commit.
  destruct (PUSH_PTRS _ objs prod_head mask n) as [ring| |]; try discriminate.
  rewrite bind_Done. intros [= <- _]. split; [reflexivity | exact Hc].
Qed.

Lemma sc_pop_commit_quiet r objs cons_head mask n r' objs' k :
  Prod.head (prod r) = Prod.tail (prod r) →
  sc_pop_commit r objs cons_head mask n = Done (r', objs', k) → quiet r'.
Proof.
  intros Hp. unfold sc_pop_commit.
  destruct (POP_PTRS _ objs cons_head mask n) as [o| |]; try discriminate.
  rewrite bind_Done. intros [= <- _ _]. split; [exact Hp | reflexivity].
Qed.

Lemma ring_sp_push_quiet r objs n behavior r' k :
  quiet r → ring_sp_push r objs n behavior = Done (r', k) → quiet r'.
Proof.
  intros Hq. unfold ring_sp_push.
  destruct (_ <? n).
  - destruct (behavior =? RING_B_FIXED); [intros [= <- _]; exact Hq|].
    destruct (_ =? 0); [intros [= <- _]; exact Hq|].
    apply sp_push_commit_quiet. apply Hq.
  - apply sp_push_commit_quiet. apply Hq.
Qed.

Lemma ring_sc_pop_quiet r objs n behavior r' objs' k :
  quiet r → ring_sc_pop r objs n behavior = Done (r', objs', k) → quiet r'.
Proof.
  intros Hq. unfold ring_sc_pop.
  destruct (_ <? n).
  - destruct (behavior =? RING_B_FIXED); [intros [= <- _ _]; exact Hq|].
    destruct (_ =? 0); [intros [= <- _ _]; exact Hq|].
    apply sc_pop_commit_quiet. apply Hq.
  - apply sc_pop_commit_quiet. apply Hq.
Qed.

(** C10: [ring_init] leaves [prod.head == prod.tail] and
    [cons.head == cons.tail]; a push or a pop that starts from such a state
    and completes, on the single or the multi path, ends in such a state; so
    the two equations hold in every state reached from an initialised ring. *)
Theorem quiet_after_every_operation :
  (∀ r0 count flags, quiet (ring_init r0 count flags)) ∧
  (∀ fuel r objs n behavior r' k,
      quiet r → ring_push fuel r objs n behavior = Done (r', k) → quiet r') ∧
  (∀ fuel r objs n behavior r' objs' k,
      quiet r → ring_pop fuel r objs n behavior = Done (r', objs', k) → quiet r') ∧
  (∀ r, reachable r → quiet r).
Proof.
  split; [|split; [|split]].
  - intros r0 count flags. split; reflexivity.
  - intros fuel r objs n behavior r' k Hq Hpush.
    apply ring_push_done in Hpush; [|apply Hq].
    apply (ring_sp_push_quiet _ _ _ _ _ _ Hq Hpush).
  - intros fuel r objs n behavior r' objs' k Hq Hpop.
    apply ring_pop_done in Hpop; [|apply Hq].
    apply (ring_sc_pop_quiet _ _ _ _ _ _ _ Hq Hpop).
  - intros r Hreach. apply reachable_inv in Hreach as Hinv.
    split; apply Hinv.
Qed.

(** ** Zero-sized requests *)

(** C9: from a state between two operations, [ring_push] and [ring_pop]
    with [n = 0] return 0 and change nothing, whatever the behavior and the
    side flags; a push on a full ring and a pop on an empty ring return 0 and
    change nothing as well, so the return value 0 does not tell the two
    apart. *)
Theorem zero_request_returns_zero (fuel : nat) (r : ring) (objs : list handle)
    (behavior : Z) :
  ring_inv r →
  ring_push (S fuel) r objs 0 behavior = Done (r, 0) ∧
  ring_pop (S fuel) r objs 0 behavior = Done (r, objs, 0) ∧
  (∀ n, is_u32 n → n <= Z.of_nat (length objs) → ring_full r = 1 →
        ring_push (S fuel) r objs n behavior = Done (r, 0)) ∧
  (∀ n, is_u32 n → n <= Z.of_nat (length objs) → ring_empty r = 1 →
        ring_pop (S fuel) r objs n behavior = Done (r, objs, 0)).
Proof.
  intros Hinv.
  pose proof (count_avail_inv r Hinv) as Hsum.
  pose proof (ring_count_range r Hinv) as Hc.
  assert (is_u32 0) as H0 by (unfold is_u32; rewrite UINT32_MOD_eq; lia).
  assert (∀ avail, 0 <= avail → grant 0 avail behavior = 0) as Hg0.
  { intros avail Ha. unfold grant. destruct (Z.ltb_spec avail 0); [lia|reflexivity]. }
  assert (∀ n, 0 <= n → grant n 0 behavior = 0) as Hgfull.
  { intros n Hn. unfold grant.
    destruct (Z.ltb_spec 0 n); [destruct (behavior =? RING_B_FIXED); reflexivity | lia]. }
  split; [|split; [|split]].
  - rewrite ring_push_fuel by apply Hinv.
    rewrite (ring_sp_push_spec r Hinv) by (try exact H0; lia).
    rewrite Hg0 by lia. rewrite (pushed_ring_0 r Hinv). reflexivity.
  - rewrite ring_pop_fuel by apply Hinv.
    rewrite (ring_sc_pop_spec r Hinv) by (try exact H0; lia).
    rewrite Hg0 by lia.
    rewrite (popped_ring_0 r Hinv), (popped_objs_0 r Hinv). reflexivity.
  - intros n Hn Hobjs Hfull.
    assert (ring_avail r = 0) as Ha.
    { unfold ring_full in Hfull. unfold ring_avail.
      destruct (Z.eqb_spec (Z.land (u32 (Cons.tail (cons r) - Prod.tail (prod r) - 1))
                              (Prod.mask (prod r))) 0); [assumption|discriminate]. }
    rewrite ring_push_fuel by apply Hinv.
    rewrite (ring_sp_push_spec r Hinv) by assumption.
    rewrite Ha, Hgfull by apply Hn. rewrite (pushed_ring_0 r Hinv). reflexivity.
  - intros n Hn Hobjs Hempty.
    assert (ring_count r = 0) as Hz.
    { rewrite (ring_count_inv r Hinv).
      unfold ring_empty, bang_bang in Hempty.
      destruct (Z.eqb_spec (Cons.tail (cons r)) (Prod.tail (prod r))) as [->|];
        [|discriminate].
      rewrite Z.sub_diag. reflexivity. }
    rewrite ring_pop_fuel by apply Hinv.
    rewrite (ring_sc_pop_spec r Hinv) by assumption.
    rewrite Hz, Hgfull by apply Hn.
    rewrite (popped_ring_0 r Hinv), (popped_objs_0 r Hinv). reflexivity.
Qed.

(** ** Fixed and variable behavior *)

Lemma grant_fixed n avail :
  grant n avail RING_B_FIXED = if avail <? n then 0 else n.
Proof. reflexivity. Qed.

Lemma grant_variable n avail : 0 <= avail → grant n avail RING_B_VARIABLE = Z.min n avail.
Proof.
  intros Ha. unfold grant. simpl. destruct (Z.ltb_spec avail n); lia.
Qed.

Section Behaviors.

Variable r : ring.
Variable objs : list handle.
Variable n : Z.

Hypothesis Hinv : ring_inv r.
Hypothesis Hn : is_u32 n.
Hypothesis Hobjs : n <= Z.of_nat (length objs).

Lemma all_or_nothing_push_spec :
  all_or_nothing_push r objs n (ring_avail r)
    (Done (pushed_ring r objs (grant n (ring_avail r) RING_B_FIXED),
           grant n (ring_avail r) RING_B_FIXED)).
Proof.
  rewrite grant_fixed. unfold is_u32 in Hn. split; intros Hcase.
  - destruct (Z.ltb_spec (ring_avail r) n); [lia|].
    eexists. split; [reflexivity|]. apply push_moves_spec; [exact Hinv|lia|lia].
  - destruct (Z.ltb_spec (ring_avail r) n); [|lia].
    rewrite (pushed_ring_0 r Hinv). reflexivity.
Qed.

Lemma all_or_nothing_pop_spec :
  all_or_nothing_pop r objs n (ring_count r)
    (Done (popped_ring r (grant n (ring_count r) RING_B_FIXED),
           popped_objs r objs (grant n (ring_count r) RING_B_FIXED),
           grant n (ring_count r) RING_B_FIXED)).
Proof.
  rewrite grant_fixed. unfold is_u32 in Hn. split; intros Hcase.
  - destruct (Z.ltb_spec (ring_count r) n); [lia|].
    eexists _, _. split; [reflexivity|]. apply pop_moves_spec; [exact Hinv|lia|lia].
  - destruct (Z.ltb_spec (ring_count r) n); [|lia].
    rewrite (popped_ring_0 r Hinv), (popped_objs_0 r Hinv). reflexivity.
Qed.

Lemma best_effort_push_spec :
  best_effort_push r objs n (ring_avail r)
    (Done (pushed_ring r objs (grant n (ring_avail r) RING_B_VARIABLE),
           grant n (ring_avail r) RING_B_VARIABLE)).
Proof.
  pose proof (count_avail_inv r Hinv). pose proof (ring_count_range r Hinv).
  rewrite grant_variable by lia. unfold is_u32 in Hn. split; intros Hcase.
  - eexists. split; [reflexivity|]. apply push_moves_spec; [exact Hinv|lia|lia].
  - rewrite Hcase. replace (Z.min n 0) with 0 by lia.
    rewrite (pushed_ring_0 r Hinv). reflexivity.
Qed.

Lemma best_effort_pop_spec :
  best_effort_pop r objs n (ring_count r)
    (Done (popped_ring r (grant n (ring_count r) RING_B_VARIABLE),
           popped_objs r objs (grant n (ring_count r) RING_B_VARIABLE),
           grant n (ring_count r) RING_B_VARIABLE)).
Proof.
  pose proof (ring_count_range r Hinv).
  rewrite grant_variable by lia. unfold is_u32 in Hn. split; intros Hcase.
  - eexists _, _. split; [reflexivity|]. apply pop_moves_spec; [exact Hinv|lia|lia].
  - rewrite Hcase. replace (Z.min n 0) with 0 by lia.
    rewrite (popped_ring_0 r Hinv), (popped_objs_0 r Hinv). reflexivity.
Qed.

End Behaviors.

(** C2: under [RING_B_FIXED], from a state between two operations, a push
    on the single-producer or the multi-producer path returns the requested
    [n] and moves exactly the [n] handles of the buffer into the ring, or
    (when fewer than [n] slots are free) returns 0 and leaves the ring as it
    was; a pop on the single-consumer or the multi-consumer path returns [n]
    and moves exactly the [n] oldest handles into the buffer, or (when fewer
    than [n] are held) returns 0 and leaves ring and buffer as they were. *)
Theorem fixed_all_or_nothing (fuel : nat) (r : ring) (objs : list handle) (n : Z) :
  ring_inv r → is_u32 n → n <= Z.of_nat (length objs) →
  all_or_nothing_push r objs n (ring_avail r) (ring_sp_push r objs n RING_B_FIXED) ∧
  all_or_nothing_push r objs n (ring_avail r) (ring_mp_push (S fuel) r objs n RING_B_FIXED) ∧
  all_or_nothing_pop r objs n (ring_count r) (ring_sc_pop r objs n RING_B_FIXED) ∧
  all_or_nothing_pop r objs n (ring_count r) (ring_mc_pop (S fuel) r objs n RING_B_FIXED).
Proof.
  intros Hinv Hn Hobjs.
  rewrite ring_mp_push_seq by apply Hinv.
  rewrite ring_mc_pop_seq by apply Hinv.
  rewrite (ring_sp_push_spec r Hinv) by assumption.
  rewrite (ring_sc_pop_spec r Hinv) by assumption.
  pose proof (all_or_nothing_push_spec r objs n Hinv Hn Hobjs).
  pose proof (all_or_nothing_pop_spec r objs n Hinv Hn Hobjs).
  tauto.
Qed.

(** C3: under [RING_B_VARIABLE], from a state between two operations with
    [avail] free slots, a push on either path returns [min n avail] and moves
    exactly the first [min n avail] handles of the buffer into the ring when
    [avail > 0], and returns 0 and changes nothing when [avail = 0]; a pop
    does the same with the number of handles held. *)
Theorem variable_best_effort (fuel : nat) (r : ring) (objs : list handle) (n : Z) :
  ring_inv r → is_u32 n → n <= Z.of_nat (length objs) →
  best_effort_push r objs n (ring_avail r) (ring_sp_push r objs n RING_B_VARIABLE) ∧
  best_effort_push r objs n (ring_avail r) (ring_mp_push (S fuel) r objs n RING_B_VARIABLE) ∧
  best_effort_pop r objs n (ring_count r) (ring_sc_pop r objs n RING_B_VARIABLE) ∧
  best_effort_pop r objs n (ring_count r) (ring_mc_pop (S fuel) r objs n RING_B_VARIABLE).
Proof.
  intros Hinv Hn Hobjs.
  rewrite ring_mp_push_seq by apply Hinv.
  rewrite ring_mc_pop_seq by apply Hinv.
  rewrite (ring_sp_push_spec r Hinv) by assumption.
  rewrite (ring_sc_pop_spec r Hinv) by assumption.
  pose proof (best_effort_push_spec r objs n Hinv Hn Hobjs).
  pose proof (best_effort_pop_spec r objs n Hinv Hn Hobjs).
  tauto.
Qed.

(** ** Slot indices *)

(** C7: for a range of [n <= size - 1] handles reserved at [head],
    [PUSH_PTRS] stores, and [POP_PTRS] loads, the i-th handle at slot
    [(head + i) & mask] for every [i < n], and touches nothing else; the
    result is one range from [head & mask] when that range ends before
    [size], and otherwise the prefix up to [size] followed by the rest from
    slot 0, which is empty when the range ends exactly at [size]. *)
Theorem slot_transfer_indices (r : ring) (objs : list handle) (head n : Z) :
  let size := Prod.size (prod r) in
  let mask := Prod.mask (prod r) in
  let idx := Z.land head mask in
  is_pow2 size → size < UINT32_MOD → mask = size - 1 → Cons.size (cons r) = size →
  0 <= n <= size - 1 → n <= Z.of_nat (length objs) →
  size <= Z.of_nat (length (slots r)) →
  (∃ ring',
      PUSH_PTRS r objs head mask n = Done ring' ∧
      (∀ i, 0 <= i < n →
            ring' !! Z.to_nat (Z.land (head + i) mask) = objs !! Z.to_nat i) ∧
      (∀ j : nat, (∀ i, 0 <= i < n → Z.of_nat j ≠ Z.land (head + i) mask) →
            ring' !! j = slots r !! j) ∧
      ring' = wrapped_write objs (slots r) idx size n ∧
      (idx + n = size →
       ring' = copy_range objs (slots r) 0 (Z.to_nat idx) (Z.to_nat n))) ∧
  (∃ objs',
      POP_PTRS r objs head mask n = Done objs' ∧
      (∀ i, 0 <= i < n →
            objs' !! Z.to_nat i = slots r !! Z.to_nat (Z.land (head + i) mask)) ∧
      (∀ j : nat, n <= Z.of_nat j → objs' !! j = objs !! j) ∧
      objs' = wrapped_read (slots r) objs idx size n ∧
      (idx + n = size →
       objs' = copy_range (slots r) objs (Z.to_nat idx) 0 (Z.to_nat n))).
Proof.
  intros size mask idx Hp Hu Hm Hcs Hn Hobjs Hslots.
  pose proof (pow2_pos _ Hp) as Hpos.
  assert (idx = head mod size) as Hidx by (unfold idx; rewrite Hm; apply pow2_land; exact Hp).
  pose proof (Z.mod_pos_bound head size Hpos) as Hrange. rewrite <- Hidx in Hrange.
  assert (∀ i, Z.land (head + i) mask = (idx + i) mod size) as Hslot.
  { intros i. rewrite Hm, pow2_land by exact Hp.
    rewrite Hidx, Z.add_mod_idemp_l by lia. reflexivity. }
  split.
  - exists (wrapped_write objs (slots r) idx size n).
    split; [rewrite Hidx; apply PUSH_PTRS_spec; assumption|].
    split; [|split; [|split]].
    + intros i Hi. rewrite Hslot. apply wrapped_write_lookup_in; assumption.
    + intros j Hj. apply wrapped_write_lookup_out; try assumption.
      intros i Hi. rewrite <- Hslot. apply Hj. exact Hi.
    + reflexivity.
    + intros Hend. unfold wrapped_write.
      destruct (Z.ltb_spec (idx + n) size); [lia|].
      replace (n - (size - idx)) with 0 by lia.
      replace (size - idx) with n by lia. reflexivity.
  - exists (wrapped_read (slots r) objs idx size n).
    split; [rewrite Hidx; apply POP_PTRS_spec; assumption|].
    split; [|split; [|split]].
    + intros i Hi. rewrite Hslot. apply wrapped_read_lookup_in; assumption.
    + intros j Hj. apply wrapped_read_lookup_out; assumption.
    + reflexivity.
    + intros Hend. unfold wrapped_read.
      destruct (Z.ltb_spec (idx + n) size); [lia|].
      replace (n - (size - idx)) with 0 by lia.
      replace (size - idx) with n by lia. reflexivity.
Qed.

(** ** First in, first out *)

(** A sequence of well-formed calls returns, keeps the FIFO relation and
    leaves the header fields set by [ring_init] alone. *)
Lemma run_spec fuel ops :
  ∀ r pushed popped,
    fifo_inv r pushed popped → forallb op_ok ops = true → can_run fuel r →
    ∃ r' pushed' popped',
      run fuel ops r pushed popped = Done (r', pushed', popped') ∧
      fifo_inv r' pushed' popped' ∧
      Prod.sp (prod r') = Prod.sp (prod r) ∧
      Cons.sc (cons r') = Cons.sc (cons r) ∧
      Prod.size (prod r') = Prod.size (prod r).
Proof.
  induction ops as [|[objs n behavior | objs n behavior] ops IH];
    intros r pushed popped Hfifo Hok Hcan; simpl in *.
  - eauto 10.
  - apply andb_prop in Hok as [Hargs Hok]. apply op_ok_args in Hargs as [Hn Hobjs].
    pose proof Hfifo as [Hinv _].
    pose proof (grant_range n (ring_avail r) behavior) as Hg.
    pose proof (count_avail_inv r Hinv). pose proof (ring_count_range r Hinv).
    rewrite can_run_push by (try exact Hcan; apply Hinv).
    rewrite ring_sp_push_spec by assumption. rewrite bind_Done.
    unfold is_u32 in Hn.
    apply (IH (pushed_ring r objs (grant n (ring_avail r) behavior)));
      [apply push_fifo; [assumption|lia|lia] | exact Hok | exact Hcan].
  - apply andb_prop in Hok as [Hargs Hok]. apply op_ok_args in Hargs as [Hn Hobjs].
    pose proof Hfifo as [Hinv _].
    pose proof (grant_range n (ring_count r) behavior) as Hg.
    pose proof (ring_count_range r Hinv).
    rewrite can_run_pop by (try exact Hcan; apply Hinv).
    rewrite ring_sc_pop_spec by assumption. rewrite bind_Done.
    unfold is_u32 in Hn.
    apply (IH (popped_ring r (grant n (ring_count r) behavior)));
      [apply pop_fifo; [assumption|lia|lia] | exact Hok | exact Hcan].
Qed.

Lemma spsc_can_run fuel r0 count :
  can_run fuel (ring_init r0 count (Z.lor RING_F_SP RING_F_SC)).
Proof. right. simpl. split; discriminate. Qed.

(** Popping everything the ring holds delivers its contents in order. *)
Lemma drain fuel r objs :
  ring_inv r → can_run fuel r → ring_count r <= Z.of_nat (length objs) →
  ∃ r', ring_pop fuel r objs (ring_count r) RING_B_FIXED
        = Done (r', contents r ++ drop (Z.to_nat (ring_count r)) objs, ring_count r) ∧
        contents r' = [].
Proof.
  intros Hinv Hcan Hobjs.
  pose proof (ring_count_range r Hinv) as Hc.
  pose proof (inv_size_u32 r Hinv) as Hu.
  pose proof (length_contents r Hinv) as Hlen.
  assert (grant (ring_count r) (ring_count r) RING_B_FIXED = ring_count r) as Hg
    by (rewrite grant_fixed; destruct (Z.ltb_spec (ring_count r) (ring_count r)); lia).
  exists (popped_ring r (ring_count r)). split.
  - rewrite can_run_pop by (try exact Hcan; apply Hinv).
    rewrite (ring_sc_pop_spec r Hinv) by (unfold is_u32; lia).
    rewrite Hg, (popped_objs_contents r Hinv) by lia.
    rewrite take_ge by lia. reflexivity.
  - rewrite (popped_ring_contents r Hinv) by lia. apply drop_ge. lia.
Qed.

(** C4: with the single-producer and single-consumer flags, every sequence
    of pushes and pops on an initialised ring returns, and the handles
    pushed are the handles popped followed by the handles the ring still
    holds, in that order; popping what the ring holds then delivers exactly
    those remaining handles, in the order they were pushed. *)
Theorem spsc_fifo_order (fuel : nat) (r0 : ring) (count : Z) (ops : list op) :
  init_ok r0 count → forallb op_ok ops = true →
  ∃ r pushed popped,
    run fuel ops (ring_init r0 count (Z.lor RING_F_SP RING_F_SC)) [] []
      = Done (r, pushed, popped) ∧
    pushed = popped ++ contents r ∧
    ∀ objs, ring_count r <= Z.of_nat (length objs) →
      ∃ r', ring_pop fuel r objs (ring_count r) RING_B_FIXED
            = Done (r', contents r ++ drop (Z.to_nat (ring_count r)) objs,
                    ring_count r) ∧
            contents r' = [].
Proof.
  intros Hinit Hok.
  destruct (run_spec fuel ops _ [] [] (ring_init_fifo r0 count _ Hinit) Hok
              (spsc_can_run fuel r0 count))
    as (r & pushed & popped & Hrun & [Hinv Hfifo] & Hsp & Hsc & _).
  exists r, pushed, popped. split; [exact Hrun|]. split; [exact Hfifo|].
  intros objs Hobjs. apply drain; [exact Hinv | | exact Hobjs].
  right. rewrite Hsp, Hsc. simpl. split; discriminate.
Qed.

(** C8: the four counters stay within 32 bits, and in every state reached by
    single-producer/single-consumer pushes and pops, however often the
    counters have wrapped, [ring_count] is the number of handles pushed and
    not yet popped, and [ring_avail] is [size - 1] minus that number; [size]
    divides [2^32]. *)
Theorem count_tracks_held (r : ring) (pushed popped : list handle) :
  spsc_reachable r pushed popped →
  let held := Z.of_nat (length pushed) - Z.of_nat (length popped) in
  is_u32 (Prod.head (prod r)) ∧ is_u32 (Prod.tail (prod r)) ∧
  is_u32 (Cons.head (cons r)) ∧ is_u32 (Cons.tail (cons r)) ∧
  (Prod.size (prod r) | UINT32_MOD) ∧
  held = Z.of_nat (length (contents r)) ∧
  ring_count r = held ∧
  ring_avail r = Prod.size (prod r) - 1 - held.
Proof.
  intros Hreach held. apply spsc_reachable_fifo in Hreach as [Hinv Hfifo].
  pose proof (length_contents r Hinv) as Hlen.
  pose proof (count_avail_inv r Hinv) as Hsum.
  assert (held = Z.of_nat (length (contents r))) as Hheld
    by (unfold held; rewrite Hfifo, length_app; lia).
  rewrite (inv_prod_quiet r Hinv), (inv_cons_quiet r Hinv).
  repeat split; try apply Hinv; try lia.
  apply pow2_divide_u32; apply Hinv.
Qed.

(** ** The theorems at concrete states *)

(** The invariant of a concrete ring of [2^k] slots, by evaluation. *)
Ltac concrete_inv k :=
  constructor; simpl;
  [ exists k; split; [lia | reflexivity]
  | reflexivity | reflexivity | reflexivity | reflexivity | reflexivity | reflexivity
  | unfold is_u32; rewrite UINT32_MOD_eq; lia
  | unfold is_u32; rewrite UINT32_MOD_eq; lia
  | vm_compute; discriminate
  | lia ].

Ltac concrete_u32 := unfold is_u32; rewrite UINT32_MOD_eq; lia.

Ltac concrete_init k :=
  split; [exists k; split; [lia | reflexivity] | split; [reflexivity | simpl; lia]].

Lemma fixed_all_or_nothing_witness :
  all_or_nothing_push wrapped_tails [20; 21] 2 (ring_avail wrapped_tails)
    (ring_sp_push wrapped_tails [20; 21] 2 RING_B_FIXED) ∧
  all_or_nothing_push wrapped_tails [20; 21] 2 (ring_avail wrapped_tails)
    (ring_mp_push 1 wrapped_tails [20; 21] 2 RING_B_FIXED) ∧
  all_or_nothing_pop wrapped_tails [20; 21] 2 (ring_count wrapped_tails)
    (ring_sc_pop wrapped_tails [20; 21] 2 RING_B_FIXED) ∧
  all_or_nothing_pop wrapped_tails [20; 21] 2 (ring_count wrapped_tails)
    (ring_mc_pop 1 wrapped_tails [20; 21] 2 RING_B_FIXED).
Proof.
  apply (fixed_all_or_nothing 0 wrapped_tails [20; 21] 2).
  - concrete_inv 3.
  - concrete_u32.
  - simpl. lia.
Defined.

Lemma variable_best_effort_witness :
  best_effort_push wrapped_tails [20; 21; 22] 3 (ring_avail wrapped_tails)
    (ring_sp_push wrapped_tails [20; 21; 22] 3 RING_B_VARIABLE) ∧
  best_effort_push wrapped_tails [20; 21; 22] 3 (ring_avail wrapped_tails)
    (ring_mp_push 1 wrapped_tails [20; 21; 22] 3 RING_B_VARIABLE) ∧
  best_effort_pop wrapped_tails [20; 21; 22] 3 (ring_count wrapped_tails)
    (ring_sc_pop wrapped_tails [20; 21; 22] 3 RING_B_VARIABLE) ∧
  best_effort_pop wrapped_tails [20; 21; 22] 3 (ring_count wrapped_tails)
    (ring_mc_pop 1 wrapped_tails [20; 21; 22] 3 RING_B_VARIABLE).
Proof.
  apply (variable_best_effort 0 wrapped_tails [20; 21; 22] 3).
  - concrete_inv 3.
  - concrete_u32.
  - simpl. lia.
Defined.

Lemma spsc_fifo_order_witness :
  ∃ r pushed popped,
    run 0 three_calls (ring_init (fresh_memory 4) 4 (Z.lor RING_F_SP RING_F_SC)) [] []
      = Done (r, pushed, popped) ∧
    pushed = popped ++ contents r ∧
    ∀ objs, ring_count r <= Z.of_nat (length objs) →
      ∃ r', ring_pop 0 r objs (ring_count r) RING_B_FIXED
            = Done (r', contents r ++ drop (Z.to_nat (ring_count r)) objs,
                    ring_count r) ∧
            contents r' = [].
Proof.
  apply (spsc_fifo_order 0 (fresh_memory 4) 4 three_calls).
  - concrete_init 2.
  - reflexivity.
Defined.

Lemma empty_full_reachable_witness :
  (ring_empty after_three_calls = 1 ↔ ring_count after_three_calls = 0) ∧
  (ring_full after_three_calls = 1 ↔ ring_avail after_three_calls = 0) ∧
  (Prod.size (prod after_three_calls) ≠ 1 →
   ¬ (ring_empty after_three_calls = 1 ∧ ring_full after_three_calls = 1)) ∧
  (Prod.size (prod after_three_calls) = 1 →
   ring_empty after_three_calls = 1 ∧ ring_full after_three_calls = 1 ∧
   ring_count after_three_calls = 0 ∧ contents after_three_calls = []).
Proof.
  apply (empty_full_reachable after_three_calls).
  exists (fresh_memory 4), 4, (Z.lor RING_F_SP RING_F_SC), 0%nat, three_calls,
    [10; 11; 12], [10; 11].
  split; [concrete_init 2|]. split; reflexivity.
Defined.

Lemma slot_transfer_indices_witness :
  (∃ ring',
      PUSH_PTRS wrapped_tails [20; 21; 22] 6 7 3 = Done ring' ∧
      (∀ i, 0 <= i < 3 →
            ring' !! Z.to_nat (Z.land (6 + i) 7) = [20; 21; 22] !! Z.to_nat i) ∧
      (∀ j : nat, (∀ i, 0 <= i < 3 → Z.of_nat j ≠ Z.land (6 + i) 7) →
            ring' !! j = slots wrapped_tails !! j) ∧
      ring' = wrapped_write [20; 21; 22] (slots wrapped_tails) (Z.land 6 7) 8 3 ∧
      (Z.land 6 7 + 3 = 8 →
       ring' = copy_range [20; 21; 22] (slots wrapped_tails) 0
                 (Z.to_nat (Z.land 6 7)) (Z.to_nat 3))) ∧
  (∃ objs',
      POP_PTRS wrapped_tails [20; 21; 22] 6 7 3 = Done objs' ∧
      (∀ i, 0 <= i < 3 →
            objs' !! Z.to_nat i = slots wrapped_tails !! Z.to_nat (Z.land (6 + i) 7)) ∧
      (∀ j : nat, 3 <= Z.of_nat j → objs' !! j = [20; 21; 22] !! j) ∧
      objs' = wrapped_read (slots wrapped_tails) [20; 21; 22] (Z.land 6 7) 8 3 ∧
      (Z.land 6 7 + 3 = 8 →
       objs' = copy_range (slots wrapped_tails) [20; 21; 22]
                 (Z.to_nat (Z.land 6 7)) 0 (Z.to_nat 3))).
Proof.
  apply (slot_transfer_indices wrapped_tails [20; 21; 22] 6 3).
  - exists 3. split; [lia | reflexivity].
  - reflexivity.
  - reflexivity.
  - reflexivity.
  - simpl. lia.
  - simpl. lia.
  - simpl. lia.
Defined.

Lemma count_tracks_held_witness :
  let held := Z.of_nat (length [10; 11; 12]) - Z.of_nat (length [10; 11]) in
  is_u32 (Prod.head (prod after_three_calls)) ∧
  is_u32 (Prod.tail (prod after_three_calls)) ∧
  is_u32 (Cons.head (cons after_three_calls)) ∧
  is_u32 (Cons.tail (cons after_three_calls)) ∧
  (Prod.size (prod after_three_calls) | UINT32_MOD) ∧
  held = Z.of_nat (length (contents after_three_calls)) ∧
  ring_count after_three_calls = held ∧
  ring_avail after_three_calls = Prod.size (prod after_three_calls) - 1 - held.
Proof.
  apply (count_tracks_held after_three_calls [10; 11; 12] [10; 11]).
  exists (fresh_memory 4), 4, 0%nat, three_calls.
  split; [concrete_init 2|]. split; reflexivity.
Defined.

Lemma zero_request_returns_zero_witness :
  ring_push 1 wrapped_tails [] 0 RING_B_VARIABLE = Done (wrapped_tails, 0) ∧
  ring_pop 1 wrapped_tails [] 0 RING_B_VARIABLE = Done (wrapped_tails, [], 0) ∧
  (∀ n, is_u32 n → n <= Z.of_nat (length (@nil handle)) → ring_full wrapped_tails = 1 →
        ring_push 1 wrapped_tails [] n RING_B_VARIABLE = Done (wrapped_tails, 0)) ∧
  (∀ n, is_u32 n → n <= Z.of_nat (length (@nil handle)) → ring_empty wrapped_tails = 1 →
        ring_pop 1 wrapped_tails [] n RING_B_VARIABLE = Done (wrapped_tails, [], 0)).
Proof.
  apply (zero_request_returns_zero 0 wrapped_tails [] RING_B_VARIABLE).
  concrete_inv 3.
Defined.

Lemma quiet_after_every_operation_witness :
  quiet (ring_init (fresh_memory 4) 4 0) ∧
  quiet (mkring (Prod.mk 0 4 3 3 3) (Cons.mk 0 4 3 0 0) [10; 11; 12; 0]) ∧
  quiet (mkring (Prod.mk 0 4 3 3 3) (Cons.mk 0 4 3 2 2) [10; 11; 12; 0]) ∧
  quiet after_three_calls.
Proof.
  destruct quiet_after_every_operation as (Hinit & Hpush & Hpop & Hreach).
  assert (quiet (ring_init (fresh_memory 4) 4 0)) as H0 by apply Hinit.
  assert (quiet (mkring (Prod.mk 0 4 3 3 3) (Cons.mk 0 4 3 0 0) [10; 11; 12; 0])) as H1.
  { apply (Hpush 1%nat (ring_init (fresh_memory 4) 4 0) [10; 11; 12] 3 RING_B_FIXED _ 3 H0).
    reflexivity. }
  assert (quiet (mkring (Prod.mk 0 4 3 3 3) (Cons.mk 0 4 3 2 2) [10; 11; 12; 0])) as H2.
  { apply (Hpop 1%nat _ [0; 0] 2 RING_B_VARIABLE _ [10; 11] 2 H1). reflexivity. }
  split; [exact H0|]. split; [exact H1|]. split; [exact H2|].
  apply Hreach.
  exists (fresh_memory 4), 4, (Z.lor RING_F_SP RING_F_SC), 0%nat, three_calls,
    [10; 11; 12], [10; 11].
  split; [concrete_init 2|]. split; reflexivity.
Defined.

(** ** Counters past the wrap *)




(** * Further properties of the code *)

(** ** The rounding helpers *)

Lemma smeared_init y : smeared y 1 y.
Proof.
  intros k Hk. split.
  - intros Hb. exists 0. rewrite Z.add_0_r. split; [lia | exact Hb].
  - intros (j & Hj & Hb). replace (k + j) with k in Hb by lia. exact Hb.
Qed.

Lemma smeared_step y w z :
  0 < w → smeared y w z → smeared y (2 * w) (Z.lor z (Z.shiftr z w)).
Proof.
  intros Hw Hz k Hk.
  rewrite Z.lor_spec, Z.shiftr_spec by exact Hk.
  rewrite orb_true_iff, (Hz k Hk), (Hz (k + w)) by lia.
  split.
  - intros [(j & Hj & Hb) | (j & Hj & Hb)].
    + exists j. split; [lia | exact Hb].
    + exists (w + j). split; [lia|]. rewrite Z.add_assoc. exact Hb.
  - intros (j & Hj & Hb). destruct (Z_lt_le_dec j w).
    + left. exists j. split; [lia | exact Hb].
    + right. exists (j - w). split; [lia|].
      replace (k + w + (j - w)) with (k + j) by lia. exact Hb.
Qed.

(** Smearing all the bits of a [w]-bit value leaves every bit up to its
    highest one set. *)
Lemma smeared_ones y w z :
  0 < w → 0 < y < 2 ^ w → smeared y w z → z = Z.ones (Z.log2 y + 1).
Proof.
  intros Hw Hy Hz.
  pose proof (Z.log2_nonneg y) as HL.
  assert (Z.log2 y < w) as HLw by (apply Z.log2_lt_pow2; lia).
  apply Z.bits_inj'. intros k Hk.
  destruct (Z_lt_le_dec k (Z.log2 y + 1)) as [Hlo|Hhi].
  - rewrite Z.ones_spec_low by lia.
    apply (Hz k Hk). exists (Z.log2 y - k). split; [lia|].
    replace (k + (Z.log2 y - k)) with (Z.log2 y) by lia.
    apply Z.bit_log2. lia.
  - rewrite Z.ones_spec_high by lia.
    destruct (Z.testbit z k) eqn:Hb; [|reflexivity].
    apply (Hz k Hk) in Hb as (j & Hj & Hb).
    rewrite Z.bits_above_log2 in Hb by lia. discriminate.
Qed.

Lemma smeared_zero w z : 0 < w → smeared 0 w z → z = 0.
Proof.
  intros Hw Hz. apply Z.bits_inj'. intros k Hk. rewrite Z.bits_0.
  destruct (Z.testbit z k) eqn:Hb; [|reflexivity].
  apply (Hz k Hk) in Hb as (j & Hj & Hb). rewrite Z.bits_0 in Hb. discriminate.
Qed.

Lemma UINT64_MOD_eq : UINT64_MOD = 18446744073709551616.
Proof. reflexivity. Qed.

Lemma u64_range x : is_u64 (u64 x).
Proof. unfold is_u64, u64. rewrite UINT64_MOD_eq. apply Z.mod_pos_bound. lia. Qed.

(** The value the 32-bit helper computes, from the highest bit of [x - 1]. *)
Lemma align32_pow2_eq x :
  align32_pow2 x
  = if u32 (x - 1) =? 0 then 1 else u32 (2 ^ (Z.log2 (u32 (x - 1)) + 1)).
Proof.
  unfold align32_pow2.
  pose proof (u32_range (x - 1)) as Hy. unfold is_u32, UINT32_MOD in Hy.
  set (y := u32 (x - 1)) in *.
  pose proof (smeared_init y) as H1.
  apply (smeared_step y 1) in H1; [|lia].
  apply (smeared_step y 2) in H1; [|lia].
  apply (smeared_step y 4) in H1; [|lia].
  apply (smeared_step y 8) in H1; [|lia].
  apply (smeared_step y 16) in H1; [|lia].
  change (2 * 1) with 2 in H1. change (2 * 2) with 4 in H1.
  change (2 * 4) with 8 in H1. change (2 * 8) with 16 in H1.
  change (2 * 16) with 32 in H1.
  destruct (Z.eqb_spec y 0) as [Hz|Hnz].
  - rewrite Hz in H1. rewrite Hz. reflexivity.
  - rewrite (smeared_ones y 32 _ ltac:(lia) ltac:(lia) H1).
    rewrite Z.ones_equiv. f_equal. lia.
Qed.

Lemma align64_pow2_eq x :
  align64_pow2 x
  = if u64 (x - 1) =? 0 then 1 else u64 (2 ^ (Z.log2 (u64 (x - 1)) + 1)).
Proof.
  unfold align64_pow2.
  pose proof (u64_range (x - 1)) as Hy. unfold is_u64, UINT64_MOD in Hy.
  set (y := u64 (x - 1)) in *.
  pose proof (smeared_init y) as H1.
  apply (smeared_step y 1) in H1; [|lia].
  apply (smeared_step y 2) in H1; [|lia].
  apply (smeared_step y 4) in H1; [|lia].
  apply (smeared_step y 8) in H1; [|lia].
  apply (smeared_step y 16) in H1; [|lia].
  apply (smeared_step y 32) in H1; [|lia].
  change (2 * 1) with 2 in H1. change (2 * 2) with 4 in H1.
  change (2 * 4) with 8 in H1. change (2 * 8) with 16 in H1.
  change (2 * 16) with 32 in H1. change (2 * 32) with 64 in H1.
  destruct (Z.eqb_spec y 0) as [Hz|Hnz].
  - rewrite Hz in H1. rewrite Hz. reflexivity.
  - rewrite (smeared_ones y 64 _ ltac:(lia) ltac:(lia) H1).
    rewrite Z.ones_equiv. f_equal. lia.
Qed.

Lemma next_pow2_bounds y :
  0 < y →
  is_pow2 (2 ^ (Z.log2 y + 1)) ∧ y + 1 <= 2 ^ (Z.log2 y + 1) <= 2 * y.
Proof.
  intros Hy. pose proof (Z.log2_nonneg y) as HL.
  destruct (Z.log2_spec y Hy) as [Hlo Hhi].
  replace (Z.succ (Z.log2 y)) with (Z.log2 y + 1) in Hhi by lia.
  split; [exists (Z.log2 y + 1); split; [lia | reflexivity]|].
  split; [lia|].
  rewrite Z.pow_add_r by lia. change (2 ^ 1) with 2. lia.
Qed.

Lemma pow2_lt_double_le r p : is_pow2 r → is_pow2 p → r < 2 * p → r <= p.
Proof.
  intros (a & Ha & ->) (b & Hb & ->) Hlt.
  replace (2 * 2 ^ b) with (2 ^ (b + 1)) in Hlt
    by (rewrite Z.pow_add_r by lia; change (2 ^ 1) with 2; lia).
  apply Z.pow_lt_mono_r_iff in Hlt; [|lia|lia].
  apply Z.pow_le_mono_r; lia.
Qed.

(** [align32_pow2] rounds up to a power of two: for [1 <= x <= 2^31] the
    result is a power of two, at least [x] and less than [2 * x], hence the
    least power of two that is at least [x]; a power of two is left as it
    is. *)
Theorem align32_pow2_rounds_up (x : Z) :
  1 <= x <= 2 ^ 31 →
  is_pow2 (align32_pow2 x) ∧
  x <= align32_pow2 x < 2 * x ∧
  (∀ p, is_pow2 p → x <= p → align32_pow2 x <= p) ∧
  (is_pow2 x → align32_pow2 x = x).
Proof.
  intros Hx. change (2 ^ 31) with 2147483648 in Hx.
  assert (is_pow2 (align32_pow2 x) ∧ x <= align32_pow2 x < 2 * x) as [Hp Hr].
  { rewrite align32_pow2_eq.
    rewrite u32_small by (unfold is_u32; rewrite UINT32_MOD_eq; lia).
    destruct (Z.eqb_spec (x - 1) 0) as [H0|Hne].
    - split; [exists 0; split; [lia | reflexivity] | lia].
    - destruct (next_pow2_bounds (x - 1) ltac:(lia)) as [Hp Hb].
      rewrite u32_small by (unfold is_u32; rewrite UINT32_MOD_eq; lia).
      split; [exact Hp | lia]. }
  split; [exact Hp|]. split; [exact Hr|].
  assert (∀ p, is_pow2 p → x <= p → align32_pow2 x <= p) as Hmin
    by (intros p Hpp Hxp; apply pow2_lt_double_le; [exact Hp | exact Hpp | lia]).
  split; [exact Hmin|].
  intros Hxp. specialize (Hmin x Hxp ltac:(lia)). lia.
Qed.

Lemma align32_pow2_rounds_up_witness :
  is_pow2 (align32_pow2 1000) ∧
  1000 <= align32_pow2 1000 < 2 * 1000 ∧
  (∀ p, is_pow2 p → 1000 <= p → align32_pow2 1000 <= p) ∧
  (is_pow2 1000 → align32_pow2 1000 = 1000).
Proof.
  apply (align32_pow2_rounds_up 1000). lia.
Defined.

(** [align32_pow2] wraps to 0 when no 32-bit power of two is large enough,
    and for 0. *)
Theorem align32_pow2_overflow (x : Z) :
  is_u32 x → x = 0 ∨ 2 ^ 31 < x → align32_pow2 x = 0.
Proof.
  unfold is_u32. rewrite UINT32_MOD_eq. change (2 ^ 31) with 2147483648.
  intros Hx Hcase. rewrite align32_pow2_eq.
  assert (2147483648 <= u32 (x - 1) < 4294967296) as Hy.
  { destruct Hcase as [-> | Hbig]; [vm_compute; split; [discriminate | reflexivity]|].
    rewrite u32_small by (unfold is_u32; rewrite UINT32_MOD_eq; lia). lia. }
  destruct (Z.eqb_spec (u32 (x - 1)) 0) as [H0|_]; [lia|].
  replace (Z.log2 (u32 (x - 1))) with 31
    by (symmetry; apply Z.log2_unique; [lia | exact Hy]).
  reflexivity.
Qed.

Lemma align32_pow2_overflow_witness : align32_pow2 2147483649 = 0.
Proof.
  apply align32_pow2_overflow.
  - unfold is_u32. rewrite UINT32_MOD_eq. lia.
  - right. reflexivity.
Defined.

(** [align64_pow2] rounds up to a power of two on [1 <= x <= 2^63]. *)
Theorem align64_pow2_rounds_up (x : Z) :
  1 <= x <= 2 ^ 63 →
  is_pow2 (align64_pow2 x) ∧
  x <= align64_pow2 x < 2 * x ∧
  (∀ p, is_pow2 p → x <= p → align64_pow2 x <= p) ∧
  (is_pow2 x → align64_pow2 x = x).
Proof.
  intros Hx. change (2 ^ 63) with 9223372036854775808 in Hx.
  assert (∀ v, 0 <= v < 18446744073709551616 → u64 v = v) as Hsmall
    by (intros v Hv; apply Z.mod_small; rewrite UINT64_MOD_eq; exact Hv).
  assert (is_pow2 (align64_pow2 x) ∧ x <= align64_pow2 x < 2 * x) as [Hp Hr].
  { rewrite align64_pow2_eq.
    rewrite (Hsmall (x - 1)) by lia.
    destruct (Z.eqb_spec (x - 1) 0) as [H0|Hne].
    - split; [exists 0; split; [lia | reflexivity] | lia].
    - destruct (next_pow2_bounds (x - 1) ltac:(lia)) as [Hp Hb].
      rewrite Hsmall by lia.
      split; [exact Hp | lia]. }
  split; [exact Hp|]. split; [exact Hr|].
  assert (∀ p, is_pow2 p → x <= p → align64_pow2 x <= p) as Hmin
    by (intros p Hpp Hxp; apply pow2_lt_double_le; [exact Hp | exact Hpp | lia]).
  split; [exact Hmin|].
  intros Hxp. specialize (Hmin x Hxp ltac:(lia)). lia.
Qed.

Lemma align64_pow2_rounds_up_witness :
  is_pow2 (align64_pow2 4294967297) ∧
  4294967297 <= align64_pow2 4294967297 < 2 * 4294967297 ∧
  (∀ p, is_pow2 p → 4294967297 <= p → align64_pow2 4294967297 <= p) ∧
  (is_pow2 4294967297 → align64_pow2 4294967297 = 4294967297).
Proof.
  apply (align64_pow2_rounds_up 4294967297). lia.
Defined.

(** [align64_pow2] wraps to 0 above [2^63], and for 0. *)
Theorem align64_pow2_overflow (x : Z) :
  is_u64 x → x = 0 ∨ 2 ^ 63 < x → align64_pow2 x = 0.
Proof.
  unfold is_u64. rewrite UINT64_MOD_eq. change (2 ^ 63) with 9223372036854775808.
  intros Hx Hcase. rewrite align64_pow2_eq.
  assert (9223372036854775808 <= u64 (x - 1) < 18446744073709551616) as Hy.
  { destruct Hcase as [-> | Hbig]; [vm_compute; split; [discriminate | reflexivity]|].
    unfold u64. rewrite Z.mod_small by (rewrite UINT64_MOD_eq; lia). lia. }
  destruct (Z.eqb_spec (u64 (x - 1)) 0) as [H0|_]; [lia|].
  replace (Z.log2 (u64 (x - 1))) with 63
    by (symmetry; apply Z.log2_unique; [lia | exact Hy]).
  reflexivity.
Qed.

Lemma align64_pow2_overflow_witness : align64_pow2 0 = 0.
Proof.
  apply align64_pow2_overflow.
  - unfold is_u64. rewrite UINT64_MOD_eq. lia.
  - left. reflexivity.
Defined.

(** ** The sizing call on every input *)

(** [POWEROF2] accepts the powers of two and 0, and nothing else. *)
Theorem POWEROF2_iff (x : Z) :
  is_u32 x → (POWEROF2 x = true ↔ x = 0 ∨ is_pow2 x).
Proof.
  intros Hx. unfold is_u32 in Hx.
  destruct (Z.eq_dec x 0) as [-> | Hne].
  - split; [intros _; left; reflexivity | intros _; reflexivity].
  - rewrite POWEROF2_pow2 by lia. split; [tauto|].
    intros [H0 | Hp]; [contradiction | exact Hp].
Qed.

Lemma POWEROF2_iff_witness : POWEROF2 4096 = true ↔ 4096 = 0 ∨ is_pow2 4096.
Proof.
  apply (POWEROF2_iff 4096). unfold is_u32. rewrite UINT32_MOD_eq. lia.
Defined.

Lemma pow2_below_mask x : is_pow2 x → (x <= RING_SIZE_MASK ↔ x <= 2 ^ 27).
Proof.
  intros (k & Hk & ->). unfold RING_SIZE_MASK. split; intros Hle.
  - apply Z.pow_le_mono_r; [lia|].
    assert (2 ^ k < 2 ^ 28) as Hlt by (change (2 ^ 28) with 268435456; lia).
    apply Z.pow_lt_mono_r_iff in Hlt; lia.
  - change (2 ^ 27) with 134217728 in Hle. lia.
Qed.

(** [ring_memsize] on every [unsigned] count: the result is not 0 exactly
    for count 0 and for the powers of two up to [2^27], and is then the
    header plus [count] handles, without 32-bit overflow. *)
Theorem ring_memsize_cases (count : Z) :
  is_u32 count →
  (ring_memsize count ≠ 0 ↔ count = 0 ∨ (is_pow2 count ∧ count <= 2 ^ 27)) ∧
  (ring_memsize count ≠ 0 → ring_memsize count = sizeof_ring + count * sizeof_ptr).
Proof.
  intros Hc. unfold is_u32 in Hc.
  destruct (Z.eq_dec count 0) as [-> | Hne].
  - split; [|reflexivity]. split; [left; reflexivity | intros _; vm_compute; discriminate].
  - destruct (POWEROF2 count) eqn:Hp.
    + apply POWEROF2_pow2 in Hp as Hpow; [|lia].
      destruct (Z_le_gt_dec count RING_SIZE_MASK) as [Hle|Hgt].
      * rewrite (ring_memsize_valid count Hpow Hle).
        unfold sizeof_ring, sizeof_ptr, CACHE_LINE_SIZE.
        split; [|reflexivity]. split; [|lia].
        intros _. right. split; [exact Hpow | apply pow2_below_mask; assumption].
      * rewrite ring_memsize_invalid by (try right; lia).
        split; [|congruence]. split; [congruence|].
        intros [H0 | [_ Hle]]; [contradiction|].
        apply pow2_below_mask in Hle; [lia | exact Hpow].
    + assert (¬ is_pow2 count) as Hnp
        by (intros Hpow; apply POWEROF2_pow2 in Hpow; [congruence | lia]).
      rewrite ring_memsize_invalid by (try left; try exact Hnp; lia).
      split; [|congruence]. split; [congruence|].
      intros [H0 | [Hpow _]]; contradiction.
Qed.

Lemma ring_memsize_cases_witness :
  (ring_memsize 1024 ≠ 0 ↔ 1024 = 0 ∨ (is_pow2 1024 ∧ 1024 <= 2 ^ 27)) ∧
  (ring_memsize 1024 ≠ 0 → ring_memsize 1024 = sizeof_ring + 1024 * sizeof_ptr).
Proof.
  apply (ring_memsize_cases 1024). unfold is_u32. rewrite UINT32_MOD_eq. lia.
Defined.

(** Rounding a request up with [align32_pow2] before sizing: up to [2^27]
    slots the sizing call gives the size of a ring with room for the
    request; from there up to [2^31] it refuses with 0; beyond [2^31], and
    for 0, the rounding wraps to 0 and the sizing call answers with the size
    of the bare header. *)
Theorem ring_memsize_after_align (x : Z) :
  is_u32 x →
  (1 <= x <= 2 ^ 27 →
   x <= align32_pow2 x ∧
   ring_memsize (align32_pow2 x) = sizeof_ring + align32_pow2 x * sizeof_ptr) ∧
  (2 ^ 27 < x <= 2 ^ 31 → ring_memsize (align32_pow2 x) = 0) ∧
  (x = 0 ∨ 2 ^ 31 < x → ring_memsize (align32_pow2 x) = sizeof_ring).
Proof.
  intros Hx. change (2 ^ 27) with 134217728. change (2 ^ 31) with 2147483648.
  split; [|split].
  - intros Hr.
    destruct (align32_pow2_rounds_up x) as (Hp & Hb & Hmin & _);
      [change (2 ^ 31) with 2147483648; lia|].
    split; [lia|]. apply ring_memsize_valid; [exact Hp|].
    apply pow2_below_mask; [exact Hp|].
    apply Hmin; [exists 27; split; [lia | reflexivity] | change (2 ^ 27) with 134217728; lia].
  - intros Hr.
    destruct (align32_pow2_rounds_up x) as (Hp & Hb & _);
      [change (2 ^ 31) with 2147483648; lia|].
    apply ring_memsize_invalid; [rewrite UINT32_MOD_eq; lia|].
    right. destruct (Z_le_gt_dec (align32_pow2 x) RING_SIZE_MASK) as [Hle|Hgt]; [|lia].
    apply pow2_below_mask in Hle; [|exact Hp].
    change (2 ^ 27) with 134217728 in Hle. lia.
  - intros Hcase. rewrite align32_pow2_overflow; [reflexivity | exact Hx | exact Hcase].
Qed.

Lemma ring_memsize_after_align_witness :
  (1 <= 1000 <= 2 ^ 27 →
   1000 <= align32_pow2 1000 ∧
   ring_memsize (align32_pow2 1000) = sizeof_ring + align32_pow2 1000 * sizeof_ptr) ∧
  (2 ^ 27 < 1000 <= 2 ^ 31 → ring_memsize (align32_pow2 1000) = 0) ∧
  (1000 = 0 ∨ 2 ^ 31 < 1000 → ring_memsize (align32_pow2 1000) = sizeof_ring).
Proof.
  apply (ring_memsize_after_align 1000). unfold is_u32. rewrite UINT32_MOD_eq. lia.
Defined.

(** ** The multi paths *)

(** Run alone from a state with no reservation pending, [ring_mp_push]
    returns what [ring_sp_push] returns and [ring_mc_pop] what [ring_sc_pop]
    returns: the compare-and-swap succeeds at once and the wait for earlier
    reservations is over before it starts. *)
Theorem multi_paths_alone (fuel : nat) (r : ring) (objs : list handle) (n behavior : Z) :
  quiet r →
  ring_mp_push (S fuel) r objs n behavior = ring_sp_push r objs n behavior ∧
  ring_mc_pop (S fuel) r objs n behavior = ring_sc_pop r objs n behavior.
Proof.
  intros [Hp Hc]. split.
  - apply ring_mp_push_seq. exact Hp.
  - apply ring_mc_pop_seq. exact Hc.
Qed.

Lemma multi_paths_alone_witness :
  ring_mp_push 1 wrapped_tails [20; 21; 22] 3 RING_B_VARIABLE
  = ring_sp_push wrapped_tails [20; 21; 22] 3 RING_B_VARIABLE ∧
  ring_mc_pop 1 wrapped_tails [20; 21; 22] 3 RING_B_VARIABLE
  = ring_sc_pop wrapped_tails [20; 21; 22] 3 RING_B_VARIABLE.
Proof.
  apply (multi_paths_alone 0 wrapped_tails [20; 21; 22] 3 RING_B_VARIABLE).
  split; reflexivity.
Defined.

Lemma spin_until_blocked fuel tail head : tail ≠ head → spin_until fuel tail head = Spin.
Proof.
  intros Hne. induction fuel as [|fuel IH]; simpl;
    destruct (Z.eqb_spec tail head); try contradiction; simpl; [reflexivity | exact IH].
Qed.

(** While an earlier reservation is unpublished ([tail] differs from
    [head]), a call on a multi path run alone never publishes: whatever the
    fuel, the only way it returns is the refusal inside the reservation loop,
    with 0 and the ring as it was. *)
Theorem multi_waits_for_earlier :
  (∀ fuel r objs n behavior r' k,
      Prod.tail (prod r) ≠ Prod.head (prod r) →
      ring_mp_push fuel r objs n behavior = Done (r', k) → r' = r ∧ k = 0) ∧
  (∀ fuel r objs n behavior r' objs' k,
      Cons.tail (cons r) ≠ Cons.head (cons r) →
      ring_mc_pop fuel r objs n behavior = Done (r', objs', k) →
      r' = r ∧ objs' = objs ∧ k = 0).
Proof.
  split.
  - intros fuel r objs n behavior r' k Hne. unfold ring_mp_push.
    destruct fuel as [|fuel]; [discriminate|]. simpl mp_push_reserve.
    unfold CAS. rewrite Z.eqb_refl.
    assert (∀ m, (ring ← PUSH_PTRS (set_prod_head r (u32 (Prod.head (prod r) + m))) objs
                          (Prod.head (prod r)) (Prod.mask (prod r)) m;
                  _ ← spin_until (S fuel)
                        (Prod.tail (prod (set_slots
                           (set_prod_head r (u32 (Prod.head (prod r) + m))) ring)))
                        (Prod.head (prod r));
                  Done (set_prod_tail (set_slots
                          (set_prod_head r (u32 (Prod.head (prod r) + m))) ring)
                          (u32 (Prod.head (prod r) + m)), m))
                 = Done (r', k) → r' = r ∧ k = 0) as Hcommit.
    { intros m. destruct (PUSH_PTRS _ objs _ _ m) as [ring| |]; try discriminate.
      rewrite bind_Done. cbv beta. change (Prod.tail (prod (set_slots _ ring)))
        with (Prod.tail (prod r)).
      rewrite spin_until_blocked by exact Hne. discriminate. }
    destruct (_ <? n).
    + destruct (behavior =? RING_B_FIXED); [intros [= <- <-]; auto|].
      destruct (_ =? 0); [intros [= <- <-]; auto|].
      rewrite bind_Done. apply Hcommit.
    + rewrite bind_Done. apply Hcommit.
  - intros fuel r objs n behavior r' objs' k Hne. unfold ring_mc_pop.
    destruct fuel as [|fuel]; [discriminate|]. simpl mc_pop_reserve.
    unfold CAS. rewrite Z.eqb_refl.
    assert (∀ m, (o ← POP_PTRS (set_cons_head r (u32 (Cons.head (cons r) + m))) objs
                       (Cons.head (cons r)) (Prod.mask (prod r)) m;
                  _ ← spin_until (S fuel)
                        (Cons.tail (cons (set_cons_head r (u32 (Cons.head (cons r) + m)))))
                        (Cons.head (cons r));
                  Done (set_cons_tail (set_cons_head r (u32 (Cons.head (cons r) + m)))
                          (u32 (Cons.head (cons r) + m)), o, m))
                 = Done (r', objs', k) → r' = r ∧ objs' = objs ∧ k = 0) as Hcommit.
    { intros m. destruct (POP_PTRS _ objs _ _ m) as [o| |]; try discriminate.
      rewrite bind_Done. cbv beta.
      change (Cons.tail (cons (set_cons_head r (u32 (Cons.head (cons r) + m)))))
        with (Cons.tail (cons r)).
      rewrite spin_until_blocked by exact Hne. discriminate. }
    destruct (_ <? n).
    + destruct (behavior =? RING_B_FIXED); [intros [= <- <- <-]; auto|].
      destruct (_ =? 0); [intros [= <- <- <-]; auto|].
      rewrite bind_Done. apply Hcommit.
    + rewrite bind_Done. apply Hcommit.
Qed.

Lemma multi_waits_for_earlier_witness :
  (pending_push = pending_push ∧ 0 = 0) ∧
  (pending_pop = pending_pop ∧ [0] = [0] ∧ 0 = 0).
Proof.
  destruct multi_waits_for_earlier as [Hpush Hpop].
  split.
  - apply (Hpush 1%nat pending_push [20] 1 RING_B_FIXED pending_push 0).
    + simpl. lia.
    + reflexivity.
  - apply (Hpop 1%nat pending_pop [0] 1 RING_B_FIXED pending_pop [0] 0).
    + simpl. lia.
    + reflexivity.
Defined.

(** ** What a call leaves alone *)

Lemma sp_push_commit_frame r objs prod_head mask n r' k :
  sp_push_commit r objs prod_head mask n = Done (r', k) →
  cons r' = cons r ∧ Prod.sp (prod r') = Prod.sp (prod r) ∧
  Prod.size (prod r') = Prod.size (prod r) ∧ Prod.mask (prod r') = Prod.mask (prod r).
Proof.
  unfold sp_push_commit.
  destruct (PUSH_PTRS _ objs prod_head mask n) as [ring| |]; try discriminate.
  rewrite bind_Done. intros [= <- _]. repeat split.
Qed.

Lemma sc_pop_commit_frame r objs cons_head mask n r' objs' k :
  sc_pop_commit r objs cons_head mask n = Done (r', objs', k) →
  prod r' = prod r ∧ slots r' = slots r ∧ Cons.sc (cons r') = Cons.sc (cons r) ∧
  Cons.size (cons r') = Cons.size (cons r) ∧ Cons.mask (cons r') = Cons.mask (cons r).
Proof.
  unfold sc_pop_commit.
  destruct (POP_PTRS _ objs cons_head mask n) as [o| |]; try discriminate.
  rewrite bind_Done. intros [= <- _ _]. repeat split.
Qed.

(** A push that returns, on either path and from any state, has left the
    consumer block and the producer's [sp], [size] and [mask] as they
    were. *)
Theorem push_leaves_consumer_side (fuel : nat) (r : ring) (objs : list handle)
    (n behavior : Z) (r' : ring) (k : Z) :
  ring_push fuel r objs n behavior = Done (r', k) →
  cons r' = cons r ∧ Prod.sp (prod r') = Prod.sp (prod r) ∧
  Prod.size (prod r') = Prod.size (prod r) ∧ Prod.mask (prod r') = Prod.mask (prod r).
Proof.
  unfold ring_push. destruct (negb (Prod.sp (prod r) =? 0)).
  - unfold ring_sp_push.
    destruct (_ <? n).
    + destruct (behavior =? RING_B_FIXED); [intros [= <- _]; repeat split|].
      destruct (_ =? 0); [intros [= <- _]; repeat split|].
      apply sp_push_commit_frame.
    + apply sp_push_commit_frame.
  - unfold ring_mp_push. destruct fuel as [|fuel]; [discriminate|].
    simpl mp_push_reserve. unfold CAS. rewrite Z.eqb_refl.
    assert (∀ m, (ring ← PUSH_PTRS (set_prod_head r (u32 (Prod.head (prod r) + m))) objs
                          (Prod.head (prod r)) (Prod.mask (prod r)) m;
                  _ ← spin_until (S fuel)
                        (Prod.tail (prod (set_slots
                           (set_prod_head r (u32 (Prod.head (prod r) + m))) ring)))
                        (Prod.head (prod r));
                  Done (set_prod_tail (set_slots
                          (set_prod_head r (u32 (Prod.head (prod r) + m))) ring)
                          (u32 (Prod.head (prod r) + m)), m))
                 = Done (r', k) →
                 cons r' = cons r ∧ Prod.sp (prod r') = Prod.sp (prod r) ∧
                 Prod.size (prod r') = Prod.size (prod r) ∧
                 Prod.mask (prod r') = Prod.mask (prod r)) as Hcommit.
    { intros m. destruct (PUSH_PTRS _ objs _ _ m) as [ring| |]; try discriminate.
      rewrite bind_Done. cbv beta.
      destruct (spin_until _ _ _) as [[]| |]; try discriminate.
      rewrite bind_Done. intros [= <- _]. repeat split. }
    destruct (_ <? n).
    + destruct (behavior =? RING_B_FIXED); [intros [= <- _]; repeat split|].
      destruct (_ =? 0); [intros [= <- _]; repeat split|].
      rewrite bind_Done. apply Hcommit.
    + rewrite bind_Done. apply Hcommit.
Qed.

Lemma push_leaves_consumer_side_witness :
  cons (mkring (Prod.mk 1 8 7 4 4) (Cons.mk 1 8 7 4294967293 4294967293)
          [10; 11; 20; 21; 0; 13; 14; 15]) = cons wrapped_tails ∧
  1 = Prod.sp (prod wrapped_tails) ∧ 8 = Prod.size (prod wrapped_tails) ∧
  7 = Prod.mask (prod wrapped_tails).
Proof.
  apply (push_leaves_consumer_side 0 wrapped_tails [20; 21; 22] 3 RING_B_VARIABLE
           (mkring (Prod.mk 1 8 7 4 4) (Cons.mk 1 8 7 4294967293 4294967293)
              [10; 11; 20; 21; 0; 13; 14; 15]) 2).
  reflexivity.
Defined.

(** A pop that returns, on either path and from any state, has left the
    producer block and the slot array as they were, and the consumer's
    [sc], [size] and [mask] as well: it only reads the slots. *)
Theorem pop_leaves_producer_side (fuel : nat) (r : ring) (objs : list handle)
    (n behavior : Z) (r' : ring) (objs' : list handle) (k : Z) :
  ring_pop fuel r objs n behavior = Done (r', objs', k) →
  prod r' = prod r ∧ slots r' = slots r ∧ Cons.sc (cons r') = Cons.sc (cons r) ∧
  Cons.size (cons r') = Cons.size (cons r) ∧ Cons.mask (cons r') = Cons.mask (cons r).
Proof.
  unfold ring_pop. destruct (negb (Cons.sc (cons r) =? 0)).
  - unfold ring_sc_pop.
    destruct (_ <? n).
    + destruct (behavior =? RING_B_FIXED); [intros [= <- _ _]; repeat split|].
      destruct (_ =? 0); [intros [= <- _ _]; repeat split|].
      apply sc_pop_commit_frame.
    + apply sc_pop_commit_frame.
  - unfold ring_mc_pop. destruct fuel as [|fuel]; [discriminate|].
    simpl mc_pop_reserve. unfold CAS. rewrite Z.eqb_refl.
    assert (∀ m, (o ← POP_PTRS (set_cons_head r (u32 (Cons.head (cons r) + m))) objs
                       (Cons.head (cons r)) (Prod.mask (prod r)) m;
                  _ ← spin_until (S fuel)
                        (Cons.tail (cons (set_cons_head r (u32 (Cons.head (cons r) + m)))))
                        (Cons.head (cons r));
                  Done (set_cons_tail (set_cons_head r (u32 (Cons.head (cons r) + m)))
                          (u32 (Cons.head (cons r) + m)), o, m))
                 = Done (r', objs', k) →
                 prod r' = prod r ∧ slots r' = slots r ∧
                 Cons.sc (cons r') = Cons.sc (cons r) ∧
                 Cons.size (cons r') = Cons.size (cons r) ∧
                 Cons.mask (cons r') = Cons.mask (cons r)) as Hcommit.
    { intros m. destruct (POP_PTRS _ objs _ _ m) as [o| |]; try discriminate.
      rewrite bind_Done. cbv beta.
      destruct (spin_until _ _ _) as [[]| |]; try discriminate.
      rewrite bind_Done. intros [= <- _ _]. repeat split. }
    destruct (_ <? n).
    + destruct (behavior =? RING_B_FIXED); [intros [= <- _ _]; repeat split|].
      destruct (_ =? 0); [intros [= <- _ _]; repeat split|].
      rewrite bind_Done. apply Hcommit.
    + rewrite bind_Done. apply Hcommit.
Qed.

Lemma pop_leaves_producer_side_witness :
  prod (mkring (Prod.mk 1 8 7 2 2) (Cons.mk 1 8 7 1 1) [10; 11; 12; 0; 0; 13; 14; 15])
  = prod wrapped_tails ∧
  [10; 11; 12; 0; 0; 13; 14; 15] = slots wrapped_tails ∧
  1 = Cons.sc (cons wrapped_tails) ∧ 8 = Cons.size (cons wrapped_tails) ∧
  7 = Cons.mask (cons wrapped_tails).
Proof.
  apply (pop_leaves_producer_side 0 wrapped_tails [0; 0; 0; 0; 0; 0] 4 RING_B_FIXED
           (mkring (Prod.mk 1 8 7 2 2) (Cons.mk 1 8 7 1 1) [10; 11; 12; 0; 0; 13; 14; 15])
           [13; 14; 15; 10; 0; 0] 4).
  reflexivity.
Defined.

(** ** The behavior argument *)

Lemma mp_push_reserve_behavior fuel r max behavior :
  behavior ≠ RING_B_FIXED →
  mp_push_reserve fuel r max behavior = mp_push_reserve fuel r max RING_B_VARIABLE.
Proof.
  intros Hb. revert r. induction fuel as [|fuel IH]; intros r; [reflexivity|].
  simpl. unfold CAS. rewrite Z.eqb_refl.
  destruct (Z.eqb_spec behavior RING_B_FIXED); [contradiction|]. reflexivity.
Qed.

Lemma mc_pop_reserve_behavior fuel r max behavior :
  behavior ≠ RING_B_FIXED →
  mc_pop_reserve fuel r max behavior = mc_pop_reserve fuel r max RING_B_VARIABLE.
Proof.
  intros Hb. revert r. induction fuel as [|fuel IH]; intros r; [reflexivity|].
  simpl. unfold CAS. rewrite Z.eqb_refl.
  destruct (Z.eqb_spec behavior RING_B_FIXED); [contradiction|]. reflexivity.
Qed.

(** Only [RING_B_FIXED] is tested for: every other value of [behavior], not
    just [RING_B_VARIABLE], makes push and pop take what they can, on every
    path and from every state. *)
Theorem behavior_other_than_fixed (fuel : nat) (r : ring) (objs : list handle)
    (n behavior : Z) :
  behavior ≠ RING_B_FIXED →
  ring_push fuel r objs n behavior = ring_push fuel r objs n RING_B_VARIABLE ∧
  ring_pop fuel r objs n behavior = ring_pop fuel r objs n RING_B_VARIABLE.
Proof.
  intros Hb. split.
  - unfold ring_push, ring_sp_push, ring_mp_push.
    rewrite (mp_push_reserve_behavior fuel r n behavior Hb).
    destruct (Z.eqb_spec behavior RING_B_FIXED); [contradiction|]. reflexivity.
  - unfold ring_pop, ring_sc_pop, ring_mc_pop.
    rewrite (mc_pop_reserve_behavior fuel r n behavior Hb).
    destruct (Z.eqb_spec behavior RING_B_FIXED); [contradiction|]. reflexivity.
Qed.

Lemma behavior_other_than_fixed_witness :
  ring_push 1 wrapped_tails [20; 21; 22] 3 (-7)
  = ring_push 1 wrapped_tails [20; 21; 22] 3 RING_B_VARIABLE ∧
  ring_pop 1 wrapped_tails [20; 21; 22] 3 (-7)
  = ring_pop 1 wrapped_tails [20; 21; 22] 3 RING_B_VARIABLE.
Proof.
  apply (behavior_other_than_fixed 1 wrapped_tails [20; 21; 22] 3 (-7)).
  discriminate.
Defined.

(** ** Push and pop together *)

Lemma ring_empty_inv r : ring_inv r → (ring_empty r = 1 ↔ ring_count r = 0).
Proof.
  intros Hinv. rewrite (ring_count_inv r Hinv). unfold ring_empty, bang_bang.
  pose proof (inv_prod_tail r Hinv) as Hpt. pose proof (inv_cons_tail r Hinv) as Hct.
  destruct (Z.eqb_spec (Cons.tail (cons r)) (Prod.tail (prod r))) as [Heq|Hne]; simpl.
  - rewrite Heq, Z.sub_diag. split; reflexivity.
  - split; [discriminate|]. intros H0. exfalso. apply Hne.
    unfold is_u32, u32 in *. rewrite UINT32_MOD_eq in *.
    apply Z.mod_divide in H0; [|lia]. destruct H0 as [q Hq]. lia.
Qed.

Lemma ring_empty_bool r : ring_empty r = 0 ∨ ring_empty r = 1.
Proof.
  unfold ring_empty, bang_bang. destruct (_ =? Prod.tail (prod r)); simpl; auto.
Qed.

Lemma ring_full_avail r : ring_full r = 1 ↔ ring_avail r = 0.
Proof.
  unfold ring_full, ring_avail.
  destruct (Z.eqb_spec (Z.land (u32 (Cons.tail (cons r) - Prod.tail (prod r) - 1))
                          (Prod.mask (prod r))) 0); split; congruence.
Qed.

Lemma ring_full_bool r : ring_full r = 0 ∨ ring_full r = 1.
Proof. unfold ring_full. destruct (_ =? 0); auto. Qed.

Lemma grant_all n avail : n <= avail → grant n avail RING_B_FIXED = n.
Proof. intros H. rewrite grant_fixed. destruct (Z.ltb_spec avail n); lia. Qed.

(** What went in comes out: after a fixed push of [n] handles that fit, a
    fixed pop of everything the ring then holds delivers the handles held
    before followed by the [n] pushed ones, in order, and leaves the ring
    empty. *)
Theorem push_then_pop_all (fuel : nat) (r : ring) (objs buf : list handle) (n : Z) :
  ring_inv r → 0 <= n <= ring_avail r → n <= Z.of_nat (length objs) →
  ring_count r + n <= Z.of_nat (length buf) →
  ∃ r1 r2,
    ring_push (S fuel) r objs n RING_B_FIXED = Done (r1, n) ∧
    ring_pop (S fuel) r1 buf (ring_count r + n) RING_B_FIXED
    = Done (r2,
            (contents r ++ take (Z.to_nat n) objs)
              ++ drop (Z.to_nat (ring_count r + n)) buf,
            ring_count r + n) ∧
    ring_empty r2 = 1.
Proof.
  intros Hinv Hn Hobjs Hbuf.
  pose proof (count_avail_inv r Hinv) as Hsum.
  pose proof (ring_count_range r Hinv) as Hc.
  pose proof (inv_size_u32 r Hinv) as Hu.
  pose proof (pushed_ring_inv r Hinv objs n Hn) as Hinv1.
  pose proof (pushed_ring_count r Hinv objs n Hn) as Hc1.
  pose proof (length_contents _ Hinv1) as Hlen1.
  assert (0 <= ring_count r + n <= ring_count (pushed_ring r objs n)) as Hall by lia.
  exists (pushed_ring r objs n), (popped_ring (pushed_ring r objs n) (ring_count r + n)).
  split; [|split].
  - rewrite ring_push_fuel by apply Hinv.
    rewrite (ring_sp_push_spec r Hinv) by (unfold is_u32; lia).
    rewrite grant_all by lia. reflexivity.
  - rewrite ring_pop_fuel by apply Hinv1.
    rewrite (ring_sc_pop_spec _ Hinv1) by (unfold is_u32; lia).
    rewrite grant_all by lia.
    rewrite (popped_objs_contents _ Hinv1) by lia.
    rewrite take_ge by lia.
    rewrite (pushed_ring_contents r Hinv) by lia. reflexivity.
  - apply ring_empty_inv; [apply popped_ring_inv; assumption|].
    rewrite (popped_ring_count _ Hinv1) by lia. lia.
Qed.

Lemma push_then_pop_all_witness :
  ∃ r1 r2,
    ring_push 1 wrapped_tails [20; 21] 2 RING_B_FIXED = Done (r1, 2) ∧
    ring_pop 1 r1 [0; 0; 0; 0; 0; 0; 0; 0] (ring_count wrapped_tails + 2) RING_B_FIXED
    = Done (r2,
            (contents wrapped_tails ++ take (Z.to_nat 2) [20; 21])
              ++ drop (Z.to_nat (ring_count wrapped_tails + 2)) [0; 0; 0; 0; 0; 0; 0; 0],
            ring_count wrapped_tails + 2) ∧
    ring_empty r2 = 1.
Proof.
  apply (push_then_pop_all 0 wrapped_tails [20; 21] [0; 0; 0; 0; 0; 0; 0; 0] 2).
  - concrete_inv 3.
  - vm_compute. split; discriminate.
  - simpl. lia.
  - vm_compute. discriminate.
Defined.

(** A push and a pop that can both go ahead do not disturb each other: in
    either order they lead to the same ring and deliver the same handles. *)
Theorem push_pop_commute (fuel : nat) (r : ring) (objs buf : list handle) (k j : Z) :
  ring_inv r → 0 <= k <= ring_avail r → 0 <= j <= ring_count r →
  k <= Z.of_nat (length objs) → j <= Z.of_nat (length buf) →
  ∃ r1 r2 r' buf',
    ring_push (S fuel) r objs k RING_B_FIXED = Done (r1, k) ∧
    ring_pop (S fuel) r1 buf j RING_B_FIXED = Done (r', buf', j) ∧
    ring_pop (S fuel) r buf j RING_B_FIXED = Done (r2, buf', j) ∧
    ring_push (S fuel) r2 objs k RING_B_FIXED = Done (r', k).
Proof.
  intros Hinv Hk Hj Hobjs Hbuf.
  pose proof (count_avail_inv r Hinv) as Hsum.
  pose proof (ring_count_range r Hinv) as Hc.
  pose proof (inv_size_u32 r Hinv) as Hu.
  pose proof (pushed_ring_inv r Hinv objs k Hk) as Hinv1.
  pose proof (pushed_ring_count r Hinv objs k Hk) as Hc1.
  pose proof (popped_ring_inv r Hinv j Hj) as Hinv2.
  pose proof (popped_ring_count r Hinv j Hj) as Hc2.
  pose proof (count_avail_inv _ Hinv2) as Hsum2.
  pose proof (length_contents r Hinv) as Hlen.
  change (Prod.size (prod (popped_ring r j))) with (Prod.size (prod r)) in Hsum2.
  exists (pushed_ring r objs k), (popped_ring r j),
    (popped_ring (pushed_ring r objs k) j), (popped_objs r buf j).
  split; [|split; [|split]].
  - rewrite ring_push_fuel by apply Hinv.
    rewrite (ring_sp_push_spec r Hinv) by (unfold is_u32; lia).
    rewrite grant_all by lia. reflexivity.
  - rewrite ring_pop_fuel by apply Hinv1.
    rewrite (ring_sc_pop_spec _ Hinv1) by (unfold is_u32; lia).
    rewrite grant_all by lia.
    rewrite (popped_objs_contents _ Hinv1), (popped_objs_contents r Hinv) by lia.
    rewrite (pushed_ring_contents r Hinv) by lia.
    rewrite take_app_le by lia. reflexivity.
  - rewrite ring_pop_fuel by apply Hinv.
    rewrite (ring_sc_pop_spec r Hinv) by (unfold is_u32; lia).
    rewrite grant_all by lia. reflexivity.
  - rewrite ring_push_fuel by apply Hinv2.
    rewrite (ring_sp_push_spec _ Hinv2) by (unfold is_u32; lia).
    rewrite grant_all by lia. reflexivity.
Qed.

Lemma push_pop_commute_witness :
  ∃ r1 r2 r' buf',
    ring_push 1 wrapped_tails [20; 21] 2 RING_B_FIXED = Done (r1, 2) ∧
    ring_pop 1 r1 [0; 0; 0] 3 RING_B_FIXED = Done (r', buf', 3) ∧
    ring_pop 1 wrapped_tails [0; 0; 0] 3 RING_B_FIXED = Done (r2, buf', 3) ∧
    ring_push 1 r2 [20; 21] 2 RING_B_FIXED = Done (r', 2).
Proof.
  apply (push_pop_commute 0 wrapped_tails [20; 21] [0; 0; 0] 2 3).
  - concrete_inv 3.
  - vm_compute. split; discriminate.
  - vm_compute. split; discriminate.
  - simpl. lia.
  - simpl. lia.
Defined.

(** ** Return values and accessors *)

(** A push that took something leaves the ring not empty, and full exactly
    when it took all the free room; a pop that delivered something leaves the
    ring not full, and empty exactly when it delivered all that was held. *)
Theorem accessors_after_transfer (fuel : nat) (r : ring) (objs : list handle)
    (n behavior : Z) :
  ring_inv r → is_u32 n → n <= Z.of_nat (length objs) →
  (∀ r' k, ring_push (S fuel) r objs n behavior = Done (r', k) → 0 < k →
           ring_empty r' = 0 ∧ (ring_full r' = 1 ↔ k = ring_avail r)) ∧
  (∀ r' objs' k, ring_pop (S fuel) r objs n behavior = Done (r', objs', k) → 0 < k →
           ring_full r' = 0 ∧ (ring_empty r' = 1 ↔ k = ring_count r)).
Proof.
  intros Hinv Hn Hobjs.
  pose proof (count_avail_inv r Hinv) as Hsum.
  pose proof (ring_count_range r Hinv) as Hc.
  unfold is_u32 in Hn.
  split.
  - intros r' k Hpush Hk.
    pose proof (grant_range n (ring_avail r) behavior ltac:(lia) ltac:(lia)) as Hg.
    rewrite ring_push_fuel in Hpush by apply Hinv.
    rewrite (ring_sp_push_spec r Hinv) in Hpush by (unfold is_u32; lia).
    injection Hpush as <- <-.
    pose proof (pushed_ring_inv r Hinv objs _ (proj1 Hg)) as Hinv'.
    pose proof (pushed_ring_count r Hinv objs _ (proj1 Hg)) as Hc'.
    pose proof (count_avail_inv _ Hinv') as Hsum'.
    change (Prod.size (prod (pushed_ring r objs (grant n (ring_avail r) behavior))))
      with (Prod.size (prod r)) in Hsum'.
    split.
    + destruct (ring_empty_bool (pushed_ring r objs (grant n (ring_avail r) behavior)))
        as [H0|H1]; [exact H0|].
      apply (ring_empty_inv _ Hinv') in H1. lia.
    + rewrite ring_full_avail. lia.
  - intros r' objs' k Hpop Hk.
    pose proof (grant_range n (ring_count r) behavior ltac:(lia) ltac:(lia)) as Hg.
    rewrite ring_pop_fuel in Hpop by apply Hinv.
    rewrite (ring_sc_pop_spec r Hinv) in Hpop by (unfold is_u32; lia).
    injection Hpop as <- <- <-.
    pose proof (popped_ring_inv r Hinv _ (proj1 Hg)) as Hinv'.
    pose proof (popped_ring_count r Hinv _ (proj1 Hg)) as Hc'.
    pose proof (count_avail_inv _ Hinv') as Hsum'.
    change (Prod.size (prod (popped_ring r (grant n (ring_count r) behavior))))
      with (Prod.size (prod r)) in Hsum'.
    split.
    + destruct (ring_full_bool (popped_ring r (grant n (ring_count r) behavior)))
        as [H0|H1]; [exact H0|].
      apply ring_full_avail in H1. lia.
    + rewrite (ring_empty_inv _ Hinv'). lia.
Qed.

Lemma accessors_after_transfer_witness :
  (∀ r' k, ring_push 1 wrapped_tails [20; 21; 22] 3 RING_B_VARIABLE = Done (r', k) →
           0 < k →
           ring_empty r' = 0 ∧ (ring_full r' = 1 ↔ k = ring_avail wrapped_tails)) ∧
  (∀ r' objs' k, ring_pop 1 wrapped_tails [20; 21; 22] 3 RING_B_VARIABLE
                 = Done (r', objs', k) → 0 < k →
           ring_full r' = 0 ∧ (ring_empty r' = 1 ↔ k = ring_count wrapped_tails)).
Proof.
  apply (accessors_after_transfer 0 wrapped_tails [20; 21; 22] 3 RING_B_VARIABLE).
  - concrete_inv 3.
  - concrete_u32.
  - simpl. lia.
Defined.

(** The ring holds at most [size - 1] handles: no call moves more than
    that, and a fixed request for [size] handles or more is refused, even on
    an empty ring for a push and on a full one for a pop. *)
Theorem request_beyond_capacity (fuel : nat) (r : ring) (objs : list handle) (n : Z) :
  ring_inv r → is_u32 n → n <= Z.of_nat (length objs) →
  (∀ behavior r' k, ring_push (S fuel) r objs n behavior = Done (r', k) →
                    k <= Prod.size (prod r) - 1) ∧
  (∀ behavior r' objs' k, ring_pop (S fuel) r objs n behavior = Done (r', objs', k) →
                    k <= Prod.size (prod r) - 1) ∧
  (Prod.size (prod r) <= n →
   ring_push (S fuel) r objs n RING_B_FIXED = Done (r, 0) ∧
   ring_pop (S fuel) r objs n RING_B_FIXED = Done (r, objs, 0)).
Proof.
  intros Hinv Hn Hobjs.
  pose proof (count_avail_inv r Hinv) as Hsum.
  pose proof (ring_count_range r Hinv) as Hc.
  unfold is_u32 in Hn.
  split; [|split].
  - intros behavior r' k Hpush.
    pose proof (grant_range n (ring_avail r) behavior ltac:(lia) ltac:(lia)) as Hg.
    rewrite ring_push_fuel in Hpush by apply Hinv.
    rewrite (ring_sp_push_spec r Hinv) in Hpush by (unfold is_u32; lia).
    injection Hpush as _ <-. lia.
  - intros behavior r' objs' k Hpop.
    pose proof (grant_range n (ring_count r) behavior ltac:(lia) ltac:(lia)) as Hg.
    rewrite ring_pop_fuel in Hpop by apply Hinv.
    rewrite (ring_sc_pop_spec r Hinv) in Hpop by (unfold is_u32; lia).
    injection Hpop as _ _ <-. lia.
  - intros Hbig. split.
    + rewrite ring_push_fuel by apply Hinv.
      rewrite (ring_sp_push_spec r Hinv) by (unfold is_u32; lia).
      rewrite grant_fixed. destruct (Z.ltb_spec (ring_avail r) n); [|lia].
      rewrite (pushed_ring_0 r Hinv). reflexivity.
    + rewrite ring_pop_fuel by apply Hinv.
      rewrite (ring_sc_pop_spec r Hinv) by (unfold is_u32; lia).
      rewrite grant_fixed. destruct (Z.ltb_spec (ring_count r) n); [|lia].
      rewrite (popped_ring_0 r Hinv), (popped_objs_0 r Hinv). reflexivity.
Qed.

Lemma request_beyond_capacity_witness :
  (∀ behavior r' k,
      ring_push 1 (ring_init (fresh_memory 4) 4 0) [1; 2; 3; 4] 4 behavior = Done (r', k) →
      k <= Prod.size (prod (ring_init (fresh_memory 4) 4 0)) - 1) ∧
  (∀ behavior r' objs' k,
      ring_pop 1 (ring_init (fresh_memory 4) 4 0) [1; 2; 3; 4] 4 behavior
      = Done (r', objs', k) →
      k <= Prod.size (prod (ring_init (fresh_memory 4) 4 0)) - 1) ∧
  (Prod.size (prod (ring_init (fresh_memory 4) 4 0)) <= 4 →
   ring_push 1 (ring_init (fresh_memory 4) 4 0) [1; 2; 3; 4] 4 RING_B_FIXED
   = Done (ring_init (fresh_memory 4) 4 0, 0) ∧
   ring_pop 1 (ring_init (fresh_memory 4) 4 0) [1; 2; 3; 4] 4 RING_B_FIXED
   = Done (ring_init (fresh_memory 4) 4 0, [1; 2; 3; 4], 0)).
Proof.
  apply (request_beyond_capacity 0 (ring_init (fresh_memory 4) 4 0) [1; 2; 3; 4] 4).
  - concrete_inv 2.
  - concrete_u32.
  - simpl. lia.
Defined.

(** ** The caller's buffer *)

(** A call reads or writes only as many buffer entries as it grants: the
    buffer may be shorter than the [n] requested as long as it holds the
    granted count, which is [min n avail] under [RING_B_VARIABLE] and 0 for a
    refused fixed request. *)
Theorem buffer_prefix_suffices (fuel : nat) (r : ring) (objs : list handle)
    (n behavior : Z) :
  ring_inv r → is_u32 n →
  (grant n (ring_avail r) behavior <= Z.of_nat (length objs) →
   ∃ r', ring_push (S fuel) r objs n behavior
         = Done (r', grant n (ring_avail r) behavior) ∧
         push_moves r objs (grant n (ring_avail r) behavior) r') ∧
  (grant n (ring_count r) behavior <= Z.of_nat (length objs) →
   ∃ r' objs', ring_pop (S fuel) r objs n behavior
               = Done (r', objs', grant n (ring_count r) behavior) ∧
               pop_moves r objs (grant n (ring_count r) behavior) r' objs').
Proof.
  intros Hinv Hn.
  pose proof (count_avail_inv r Hinv) as Hsum.
  pose proof (ring_count_range r Hinv) as Hc.
  unfold is_u32 in Hn.
  split.
  - intros Hobjs.
    pose proof (grant_range n (ring_avail r) behavior ltac:(lia) ltac:(lia)) as Hg.
    exists (pushed_ring r objs (grant n (ring_avail r) behavior)).
    split; [|apply push_moves_spec; [exact Hinv | lia | lia]].
    rewrite ring_push_fuel by apply Hinv.
    revert Hobjs Hg. unfold ring_sp_push, grant. rewrite (push_avail_inv r Hinv).
    intros Hobjs Hg.
    destruct (Z.ltb_spec (ring_avail r) n).
    + destruct (behavior =? RING_B_FIXED).
      * rewrite (pushed_ring_0 r Hinv). reflexivity.
      * destruct (Z.eqb_spec (ring_avail r) 0) as [->|Hne].
        -- rewrite (pushed_ring_0 r Hinv). reflexivity.
        -- apply (sp_push_commit_spec r Hinv); lia.
    + apply (sp_push_commit_spec r Hinv); lia.
  - intros Hobjs.
    pose proof (grant_range n (ring_count r) behavior ltac:(lia) ltac:(lia)) as Hg.
    exists (popped_ring r (grant n (ring_count r) behavior)),
      (popped_objs r objs (grant n (ring_count r) behavior)).
    split; [|apply pop_moves_spec; [exact Hinv | lia | lia]].
    rewrite ring_pop_fuel by apply Hinv.
    revert Hobjs Hg. unfold ring_sc_pop, grant. rewrite (pop_avail_inv r Hinv).
    intros Hobjs Hg.
    destruct (Z.ltb_spec (ring_count r) n).
    + destruct (behavior =? RING_B_FIXED).
      * rewrite (popped_ring_0 r Hinv), (popped_objs_0 r Hinv). reflexivity.
      * destruct (Z.eqb_spec (ring_count r) 0) as [->|Hne].
        -- rewrite (popped_ring_0 r Hinv), (popped_objs_0 r Hinv). reflexivity.
        -- apply (sc_pop_commit_spec r Hinv); lia.
    + apply (sc_pop_commit_spec r Hinv); lia.
Qed.

Lemma buffer_prefix_suffices_witness :
  (grant 1000 (ring_avail wrapped_tails) RING_B_VARIABLE
   <= Z.of_nat (length [20; 21]) →
   ∃ r', ring_push 1 wrapped_tails [20; 21] 1000 RING_B_VARIABLE
         = Done (r', grant 1000 (ring_avail wrapped_tails) RING_B_VARIABLE) ∧
         push_moves wrapped_tails [20; 21]
           (grant 1000 (ring_avail wrapped_tails) RING_B_VARIABLE) r') ∧
  (grant 1000 (ring_count wrapped_tails) RING_B_VARIABLE
   <= Z.of_nat (length [20; 21]) →
   ∃ r' objs', ring_pop 1 wrapped_tails [20; 21] 1000 RING_B_VARIABLE
               = Done (r', objs', grant 1000 (ring_count wrapped_tails) RING_B_VARIABLE) ∧
               pop_moves wrapped_tails [20; 21]
                 (grant 1000 (ring_count wrapped_tails) RING_B_VARIABLE) r' objs').
Proof.
  apply (buffer_prefix_suffices 0 wrapped_tails [20; 21] 1000 RING_B_VARIABLE).
  - concrete_inv 3.
  - concrete_u32.
Defined.

(** ** The two macros together *)

(** [POP_PTRS] at the head and count of a [PUSH_PTRS] reads back the
    handles it stored, in order, whether or not the range wraps, and leaves
    the rest of the buffer alone. *)
Theorem transfer_round_trip (r : ring) (objs buf : list handle) (head n : Z) :
  let size := Prod.size (prod r) in
  let mask := Prod.mask (prod r) in
  is_pow2 size → size < UINT32_MOD → mask = size - 1 → Cons.size (cons r) = size →
  0 <= n <= size - 1 → n <= Z.of_nat (length objs) → n <= Z.of_nat (length buf) →
  size <= Z.of_nat (length (slots r)) →
  ∃ ring',
    PUSH_PTRS r objs head mask n = Done ring' ∧
    POP_PTRS (set_slots r ring') buf head mask n
    = Done (take (Z.to_nat n) objs ++ drop (Z.to_nat n) buf).
Proof.
  intros size mask Hp Hu Hm Hcs Hn Hobjs Hbuf Hslots.
  pose proof (pow2_pos _ Hp) as Hpos.
  pose proof (Z.mod_pos_bound head size Hpos) as Hidx.
  exists (wrapped_write objs (slots r) (head mod size) size n).
  split; [apply PUSH_PTRS_spec; assumption|].
  rewrite POP_PTRS_spec; simpl; try assumption;
    [|rewrite wrapped_write_length; exact Hslots].
  f_equal. fold size.
  assert (length (take (Z.to_nat n) objs) = Z.to_nat n) as Htake
    by (rewrite length_take; lia).
  apply list_eq. intros i.
  destruct (decide (Z.of_nat i < n)) as [Hlo|Hhi].
  - rewrite lookup_app_l by lia.
    rewrite lookup_take, decide_True by lia.
    replace i with (Z.to_nat (Z.of_nat i)) at 1 by lia.
    rewrite wrapped_read_lookup_in; try lia; [|rewrite wrapped_write_length; lia].
    rewrite wrapped_write_lookup_in by lia.
    f_equal. lia.
  - rewrite lookup_app_r by lia.
    rewrite wrapped_read_lookup_out by lia.
    rewrite lookup_drop. f_equal. lia.
Qed.

Lemma transfer_round_trip_witness :
  ∃ ring',
    PUSH_PTRS wrapped_tails [20; 21; 22] 6 7 3 = Done ring' ∧
    POP_PTRS (set_slots wrapped_tails ring') [0; 0; 0; 0] 6 7 3
    = Done (take (Z.to_nat 3) [20; 21; 22] ++ drop (Z.to_nat 3) [0; 0; 0; 0]).
Proof.
  apply (transfer_round_trip wrapped_tails [20; 21; 22] [0; 0; 0; 0] 6 3).
  - exists 3. split; [lia | reflexivity].
  - reflexivity.
  - reflexivity.
  - reflexivity.
  - simpl. lia.
  - simpl. lia.
  - simpl. lia.
  - simpl. lia.
Defined.

(** ** Initialisation *)

(** [ring_init] with a power-of-two count makes the ring empty whatever the
    memory held before: nothing is counted, [count - 1] slots are free, the
    ring is full only for [count = 1], and the slot memory is not touched. *)
Theorem ring_init_fresh (r0 : ring) (count flags : Z) :
  init_ok r0 count →
  ring_count (ring_init r0 count flags) = 0 ∧
  ring_avail (ring_init r0 count flags) = count - 1 ∧
  ring_empty (ring_init r0 count flags) = 1 ∧
  (ring_full (ring_init r0 count flags) = 1 ↔ count = 1) ∧
  contents (ring_init r0 count flags) = [] ∧
  slots (ring_init r0 count flags) = slots r0.
Proof.
  intros Hinit. pose proof (ring_init_inv r0 count flags Hinit) as Hinv.
  pose proof (count_avail_inv _ Hinv) as Hsum.
  assert (ring_count (ring_init r0 count flags) = 0) as Hc by reflexivity.
  change (Prod.size (prod (ring_init r0 count flags))) with count in Hsum.
  split; [exact Hc|]. split; [lia|]. split; [reflexivity|].
  split; [rewrite ring_full_avail; lia|]. split; reflexivity.
Qed.

Lemma ring_init_fresh_witness :
  ring_count (ring_init wrapped_tails 8 0) = 0 ∧
  ring_avail (ring_init wrapped_tails 8 0) = 8 - 1 ∧
  ring_empty (ring_init wrapped_tails 8 0) = 1 ∧
  (ring_full (ring_init wrapped_tails 8 0) = 1 ↔ 8 = 1) ∧
  contents (ring_init wrapped_tails 8 0) = [] ∧
  slots (ring_init wrapped_tails 8 0) = slots wrapped_tails.
Proof.
  apply (ring_init_fresh wrapped_tails 8 0). concrete_init 3.
Defined.

Lemma land_bit1 flags : (Z.land flags 2 =? 0) = negb (Z.testbit flags 1).
Proof.
  destruct (Z.testbit flags 1) eqn:Hb; simpl.
  - apply Z.eqb_neq. intros H0.
    assert (Z.testbit (Z.land flags 2) 1 = true) as Hbit
      by (rewrite Z.land_spec, Hb; reflexivity).
    rewrite H0, Z.bits_0 in Hbit. discriminate.
  - apply Z.eqb_eq. apply Z.bits_inj'. intros k Hk.
    rewrite Z.land_spec, Z.bits_0.
    destruct (Z.eq_dec k 1) as [->|Hne]; [rewrite Hb; reflexivity|].
    replace (Z.testbit 2 k) with false; [apply andb_false_r|].
    symmetry. change 2 with (2 ^ 1). apply Z.pow2_bits_false. lia.
Qed.

Lemma land_bit0 flags : (Z.land flags 1 =? 0) = negb (Z.testbit flags 0).
Proof.
  destruct (Z.testbit flags 0) eqn:Hb; simpl.
  - apply Z.eqb_neq. intros H0.
    assert (Z.testbit (Z.land flags 1) 0 = true) as Hbit
      by (rewrite Z.land_spec, Hb; reflexivity).
    rewrite H0, Z.bits_0 in Hbit. discriminate.
  - apply Z.eqb_eq. apply Z.bits_inj'. intros k Hk.
    rewrite Z.land_spec, Z.bits_0.
    destruct (Z.eq_dec k 0) as [->|Hne]; [rewrite Hb; reflexivity|].
    replace (Z.testbit 1 k) with false; [apply andb_false_r|].
    symmetry. change 1 with (2 ^ 0). apply Z.pow2_bits_false. lia.
Qed.

(** [ring_init] looks at bits 0 and 1 of [flags] only and stores each as 0
    or 1; [ring_push] then takes the single-producer path exactly when bit 0
    was set and [ring_pop] the single-consumer path exactly when bit 1
    was. *)
Theorem ring_init_flags (fuel : nat) (r0 : ring) (count flags : Z)
    (objs : list handle) (n behavior : Z) :
  let r := ring_init r0 count flags in
  Prod.sp (prod r) = (if Z.testbit flags 0 then 1 else 0) ∧
  Cons.sc (cons r) = (if Z.testbit flags 1 then 1 else 0) ∧
  r = ring_init r0 count (Z.land flags (Z.lor RING_F_SP RING_F_SC)) ∧
  ring_push fuel r objs n behavior
  = (if Z.testbit flags 0 then ring_sp_push r objs n behavior
     else ring_mp_push fuel r objs n behavior) ∧
  ring_pop fuel r objs n behavior
  = (if Z.testbit flags 1 then ring_sc_pop r objs n behavior
     else ring_mc_pop fuel r objs n behavior).
Proof.
  intros r.
  assert (Prod.sp (prod r) = (if Z.testbit flags 0 then 1 else 0)) as Hsp.
  { change (Prod.sp (prod r)) with (bang_bang (Z.land flags RING_F_SP)).
    unfold bang_bang, RING_F_SP. rewrite land_bit0.
    destruct (Z.testbit flags 0); reflexivity. }
  assert (Cons.sc (cons r) = (if Z.testbit flags 1 then 1 else 0)) as Hsc.
  { change (Cons.sc (cons r)) with (bang_bang (Z.land flags RING_F_SC)).
    unfold bang_bang, RING_F_SC. rewrite land_bit1.
    destruct (Z.testbit flags 1); reflexivity. }
  split; [exact Hsp|]. split; [exact Hsc|]. split; [|split].
  - unfold r, ring_init, bang_bang, RING_F_SP, RING_F_SC.
    rewrite !land_bit0, !land_bit1, !Z.land_spec.
    change (Z.testbit (Z.lor 1 2) 0) with true.
    change (Z.testbit (Z.lor 1 2) 1) with true.
    rewrite !andb_true_r. reflexivity.
  - unfold ring_push. rewrite Hsp. destruct (Z.testbit flags 0); reflexivity.
  - unfold ring_pop. rewrite Hsc. destruct (Z.testbit flags 1); reflexivity.
Qed.



(** ** Sequences on the multi paths *)

(** First in, first out does not depend on the flags: run one call after the
    other, every sequence of pushes and pops on a ring initialised with any
    flags returns, the handles pushed are the handles popped followed by the
    contents of the ring, and the state reached is again one between two
    operations. *)
Theorem fifo_any_flags (fuel : nat) (r0 : ring) (count flags : Z) (ops : list op) :
  init_ok r0 count → forallb op_ok ops = true →
  ∃ r pushed popped,
    run (S fuel) ops (ring_init r0 count flags) [] [] = Done (r, pushed, popped) ∧
    pushed = popped ++ contents r ∧
    ring_inv r ∧
    ring_count r = Z.of_nat (length pushed) - Z.of_nat (length popped).
Proof.
  intros Hinit Hok.
  destruct (run_spec (S fuel) ops _ [] [] (ring_init_fifo r0 count flags Hinit) Hok)
    as (r & pushed & popped & Hrun & [Hinv Hfifo] & _); [left; discriminate|].
  exists r, pushed, popped.
  split; [exact Hrun|]. split; [exact Hfifo|]. split; [exact Hinv|].
  pose proof (length_contents r Hinv) as Hlen.
  rewrite Hfifo, length_app. lia.
Qed.

Lemma fifo_any_flags_witness :
  ∃ r pushed popped,
    run 1 three_calls (ring_init (fresh_memory 4) 4 0) [] [] = Done (r, pushed, popped) ∧
    pushed = popped ++ contents r ∧
    ring_inv r ∧
    ring_count r = Z.of_nat (length pushed) - Z.of_nat (length popped).
Proof.
  apply (fifo_any_flags 0 (fresh_memory 4) 4 0 three_calls).
  - concrete_init 2.
  - reflexivity.
Defined.
